(** * Vehicle trace relevance engine: a shallow embedding of [Trace.py]

    The development follows the Python sources [Trace.py], [TraceMatch.py]
    and [GeoShapes.py].  Python floats are idealised as real numbers
    (no rounding, no NaN, no infinities); Python integers are [Z].
    Methods that read or write the attributes of a [Trace] object are
    written in a state-and-exception monad over the record [Trace];
    [try: ... except Exception: ... return 1] blocks are modelled by
    [try_except], which keeps the mutations made before the raise. *)

From Stdlib Require Import Reals Lra Lia List ZArith String Bool Sorted DecimalString.
Import ListNotations.
Open Scope R_scope.

(** ** Comparisons on Python floats, as booleans *)

Definition Rltb (x y : R) : bool := if Rlt_dec x y then true else false.
Definition Rleb (x y : R) : bool := if Rle_dec x y then true else false.
Definition Reqb (x y : R) : bool := if Req_dec_T x y then true else false.

(** [math.radians] *)
Definition radians (deg : R) : R := deg * (PI / 180).

(** ** Planar vectors

    [Trace.py] and [GeoShapes.py] build [Vector(x, y)] objects and use their
    attributes [X], [Y] and their methods [getDistance] and [getAngle].  The
    class that provides these is not part of the sources at hand
    ([Vector.py] defines other names), so the two methods are modelled from
    the specification. *)

Record Vector : Type := mkVector { X : R; Y : R }.

(** Modelled from the spec: [Vector.getDistance] is missing from the sources;
    the specification gives [distance(a,b) = hypot(b.x - a.x, b.y - a.y)]. *)
Definition getDistance (a b : Vector) : R :=
  sqrt ((X b - X a) * (X b - X a) + (Y b - Y a) * (Y b - Y a)).

(** Modelled from the spec: [Vector.getAngle] is missing from the sources;
    the specification describes the unsigned angle in [[0, pi]] between the
    two vectors, and [0] in the degenerate case of a null vector. *)
Definition getAngle (u v : Vector) : R :=
  let n := sqrt (X u * X u + Y u * Y u) * sqrt (X v * X v + Y v * Y v) in
  if Reqb n 0 then 0 else acos ((X u * X v + Y u * Y v) / n).

(** ** TraceMatch.py *)

Inductive MatchStatus : Type :=
| STATUS_MATCH
| STATUS_NO_MATCH_RELEVANCE_AREA
| STATUS_NO_MATCH_HEADING
| STATUS_NO_MATCH_TRACE
| STATUS_NO_MATCH_UNDEFINED.

Definition status_code (s : MatchStatus) : Z :=
  match s with
  | STATUS_MATCH => 0
  | STATUS_NO_MATCH_RELEVANCE_AREA => 1
  | STATUS_NO_MATCH_HEADING => 2
  | STATUS_NO_MATCH_TRACE => 3
  | STATUS_NO_MATCH_UNDEFINED => 4
  end%Z.

Record TraceMatch : Type := mkTraceMatch {
  matchQuality : R;
  matchDistance : R;
  matchStatus : MatchStatus
}.

(** [TraceMatch.__init__] *)
Definition TraceMatch_init : TraceMatch :=
  mkTraceMatch 0 9999 STATUS_NO_MATCH_UNDEFINED.

Definition setMatchQuality (value : R) (m : TraceMatch) : TraceMatch :=
  mkTraceMatch value (matchDistance m) (matchStatus m).

Definition setMatchDistance (value : R) (m : TraceMatch) : TraceMatch :=
  mkTraceMatch (matchQuality m) value (matchStatus m).

Definition setMatchStatus (value : MatchStatus) (m : TraceMatch) : TraceMatch :=
  mkTraceMatch (matchQuality m) (matchDistance m) value.

(** ** GeoShapes.py: areas

    The matcher accepts any object with a [contains(x, y)] method; an area
    is therefore its membership test. *)

Definition Area : Type := R -> R -> bool.

(** [Circle.contains] *)
Definition Circle_contains (center : Vector) (radius : R) : Area :=
  fun x y => Rleb (getDistance (mkVector x y) center) radius.

(** ** Trace.py: data *)

(** The [currenttime] slot of a trace point: the constructor stores the
    [initialTime] it was given, while [__addTracePointByPosition] stores the
    function object [datetime.datetime.now] itself (it is never called). *)
Inductive TimeSlot : Type :=
| TimeValue (t : R)
| NowFunction.

(** A trace point is the tuple [(position, currenttime, velocity, vehID)]. *)
Record TracePoint : Type := mkTracePoint {
  tp_position : Vector;
  tp_time : TimeSlot;
  tp_velocity : R;
  tp_vehID : Z
}.

(** The attributes of a [Trace] object.  [TRACE_N_MAX] and [TRACE_LENGTH_MAX]
    are class constants that [overwriteMaxTraceLength] shadows per instance,
    so they are part of the state.  [virtualEvaluationPoints] is the
    class-level list: [__init__] never rebinds it, so a new object starts
    with whatever the class list holds at that moment. *)
Record Trace : Type := mkTrace {
  points : list TracePoint;
  odometer : R;
  relevanceArea : option Area;
  ntptotal : Z;
  alphamin : R;
  alphamax : R;
  referencePosition : Vector;
  currentPos : option Vector;
  initialTime : R;
  vehID : Z;
  virtualEvaluationPoints : list TracePoint;
  TRACE_N_MAX : Z;
  TRACE_LENGTH_MAX : R
}.

Definition set_points (v : list TracePoint) (t : Trace) : Trace :=
  mkTrace v (odometer t) (relevanceArea t) (ntptotal t) (alphamin t) (alphamax t)
    (referencePosition t) (currentPos t) (initialTime t) (vehID t)
    (virtualEvaluationPoints t) (TRACE_N_MAX t) (TRACE_LENGTH_MAX t).

Definition set_odometer (v : R) (t : Trace) : Trace :=
  mkTrace (points t) v (relevanceArea t) (ntptotal t) (alphamin t) (alphamax t)
    (referencePosition t) (currentPos t) (initialTime t) (vehID t)
    (virtualEvaluationPoints t) (TRACE_N_MAX t) (TRACE_LENGTH_MAX t).

Definition set_ntptotal (v : Z) (t : Trace) : Trace :=
  mkTrace (points t) (odometer t) (relevanceArea t) v (alphamin t) (alphamax t)
    (referencePosition t) (currentPos t) (initialTime t) (vehID t)
    (virtualEvaluationPoints t) (TRACE_N_MAX t) (TRACE_LENGTH_MAX t).

Definition set_alphamin (v : R) (t : Trace) : Trace :=
  mkTrace (points t) (odometer t) (relevanceArea t) (ntptotal t) v (alphamax t)
    (referencePosition t) (currentPos t) (initialTime t) (vehID t)
    (virtualEvaluationPoints t) (TRACE_N_MAX t) (TRACE_LENGTH_MAX t).

Definition set_alphamax (v : R) (t : Trace) : Trace :=
  mkTrace (points t) (odometer t) (relevanceArea t) (ntptotal t) (alphamin t) v
    (referencePosition t) (currentPos t) (initialTime t) (vehID t)
    (virtualEvaluationPoints t) (TRACE_N_MAX t) (TRACE_LENGTH_MAX t).

Definition set_referencePosition (v : Vector) (t : Trace) : Trace :=
  mkTrace (points t) (odometer t) (relevanceArea t) (ntptotal t) (alphamin t) (alphamax t)
    v (currentPos t) (initialTime t) (vehID t)
    (virtualEvaluationPoints t) (TRACE_N_MAX t) (TRACE_LENGTH_MAX t).

Definition set_currentPos (v : option Vector) (t : Trace) : Trace :=
  mkTrace (points t) (odometer t) (relevanceArea t) (ntptotal t) (alphamin t) (alphamax t)
    (referencePosition t) v (initialTime t) (vehID t)
    (virtualEvaluationPoints t) (TRACE_N_MAX t) (TRACE_LENGTH_MAX t).

Definition set_virtualEvaluationPoints (v : list TracePoint) (t : Trace) : Trace :=
  mkTrace (points t) (odometer t) (relevanceArea t) (ntptotal t) (alphamin t) (alphamax t)
    (referencePosition t) (currentPos t) (initialTime t) (vehID t)
    v (TRACE_N_MAX t) (TRACE_LENGTH_MAX t).

Definition set_TRACE_N_MAX (v : Z) (t : Trace) : Trace :=
  mkTrace (points t) (odometer t) (relevanceArea t) (ntptotal t) (alphamin t) (alphamax t)
    (referencePosition t) (currentPos t) (initialTime t) (vehID t)
    (virtualEvaluationPoints t) v (TRACE_LENGTH_MAX t).

Definition set_TRACE_LENGTH_MAX (v : R) (t : Trace) : Trace :=
  mkTrace (points t) (odometer t) (relevanceArea t) (ntptotal t) (alphamin t) (alphamax t)
    (referencePosition t) (currentPos t) (initialTime t) (vehID t)
    (virtualEvaluationPoints t) (TRACE_N_MAX t) v.

(** Class constants. *)
Definition TRACE_MIN_DIST : R := 10.
Definition TRACE_MAX_DIST : R := 200.
Definition TRACE_MAX_OFFSET : R := 10.
Definition TRACE_MAX_HEDINGDELTA : R := radians 45.
Definition TRACE_N_MAX_default : Z := 16.
Definition TRACE_LENGTH_MAX_default : R := 2500.
Definition MATCH_MAX_DIST : R := 2500.
Definition MATCH_MAX_OFFSET : R := 20.
Definition MATCH_MAX_HEADINGDELTA : R := radians 60.
Definition MATCH_DIST_SMOOTH : R := 20.
Definition MATCH_MIN_QUALITY : R := 8 / 10.
Definition AREA_WIDTH_OVERFLOW : R := 30.
Definition QUALITY_DELTA : R := 1 / 100.
Definition MAX_VALUE : R := 9999.
Definition MIN_EVALUATION_TRACE_LENGHT : R := 1000.

(** ** The state-and-exception monad *)

Inductive PyValue : Type :=
| PyStr (s : string)
| PyInt (z : Z).

Inductive Exn : Type :=
| NotEnoughTracePointsException (value : PyValue)
| IndexError
| AttributeError
| UnboundLocalError.

Inductive Outcome (A : Type) : Type :=
| Ok (a : A)
| Raise (e : Exn).
Arguments Ok {A} a.
Arguments Raise {A} e.

Definition M (A : Type) : Type := Trace -> Outcome A * Trace.

Definition ret {A} (a : A) : M A := fun t => (Ok a, t).

Definition bind {A B} (m : M A) (k : A -> M B) : M B :=
  fun t => match m t with
           | (Ok a, t') => k a t'
           | (Raise e, t') => (Raise e, t')
           end.

Definition raise {A} (e : Exn) : M A := fun t => (Raise e, t).
Definition gets {A} (f : Trace -> A) : M A := fun t => (Ok (f t), t).
Definition modify (f : Trace -> Trace) : M unit := fun t => (Ok tt, f t).

(** A pure computation that may raise, run inside the monad. *)
Definition lift {A} (o : Outcome A) : M A := fun t => (o, t).

Definition obind {A B} (o : Outcome A) (k : A -> Outcome B) : Outcome B :=
  match o with
  | Ok a => k a
  | Raise e => Raise e
  end.

Declare Scope monad_scope.
Delimit Scope monad_scope with monad.
Notation "x <- m ;; k" := (bind m (fun x => k))
  (at level 61, m at next level, right associativity) : monad_scope.
Notation "m ;;; k" := (bind m (fun _ => k))
  (at level 61, right associativity) : monad_scope.
Open Scope monad_scope.

(** What a method wrapped in [try: ... except Exception: ...; return 1]
    hands back: the value of the body, or the integer [1] of the handler
    (whose printing and sleeping are not modelled). *)
Inductive Ret (A : Type) : Type :=
| Value (a : A)
| IntOne.
Arguments Value {A} a.
Arguments IntOne {A}.

Definition try_except {A} (body : M A) : Trace -> Ret A * Trace :=
  fun t => match body t with
           | (Ok a, t') => (Value a, t')
           | (Raise _, t') => (IntOne, t')
           end.

(** ** Trace.py: operations *)

(** [getDirection] *)
Definition getDirection (pos1 pos2 : Vector) : R :=
  let yVector := mkVector 0 1 in
  let x := X pos2 - X pos1 in
  let y := Y pos2 - Y pos1 in
  let scaledPosition := mkVector x y in
  let directionAngle := getAngle yVector scaledPosition in
  if Rltb 0 x then 2 * PI - directionAngle else directionAngle.

(** The loop of [calcTraceLength]: [oldPoint] and [length] are its
    variables, [ps] the points still to visit. *)
Fixpoint calcTraceLength_loop (oldPoint : option TracePoint) (length : R)
    (ps : list TracePoint) : R :=
  match ps with
  | [] => length
  | point :: rest =>
      let length' :=
        match oldPoint with
        | Some old => length + getDistance (tp_position point) (tp_position old)
        | None => length
        end in
      calcTraceLength_loop (Some point) length' rest
  end.

Definition calcTraceLength : M R :=
  ps <- gets points ;;
  ret (calcTraceLength_loop None 0 ps).

Definition calcNrOfPoints : M nat :=
  ps <- gets points ;; ret (List.length ps).

Definition getReferencePosition : M Vector := gets referencePosition.

(** [__addTracePoint] *)
Definition addTracePoint (x y : R) (currenttime : TimeSlot) (velocity : R) : M unit :=
  ps <- gets points ;;
  nmax <- gets TRACE_N_MAX ;;
  (if (nmax <=? Z.of_nat (List.length ps))%Z then
     len <- calcTraceLength ;;
     (if Rltb len MIN_EVALUATION_TRACE_LENGHT then
        match rev ps with
        | oldest :: _ =>
            modify (fun t => set_virtualEvaluationPoints
                               (oldest :: virtualEvaluationPoints t) t)
        | [] => raise IndexError
        end
      else ret tt) ;;;
     (match ps with
      | [] => raise IndexError
      | _ :: _ => modify (set_points (removelast ps))
      end) ;;;
     modify (fun t => set_ntptotal (ntptotal t - 1) t)
   else ret tt) ;;;
  let position := mkVector x y in
  id <- gets vehID ;;
  modify (fun t => set_points (mkTracePoint position currenttime velocity id :: points t) t) ;;;
  modify (set_odometer 0) ;;;
  modify (set_alphamin 0) ;;;
  modify (set_alphamax (2 * PI)) ;;;
  modify (fun t => set_ntptotal (ntptotal t + 1) t).

(** [__addTracePointByPosition] *)
Definition addTracePointByPosition (position : Vector) (v : R) : M unit :=
  let currenttime := NowFunction in
  addTracePoint (X position) (Y position) currenttime v.

(** [Trace.__init__]; [cls_virtualEvaluationPoints] is the content of the
    class-level list when the object is created. *)
Definition Trace_init (cls_virtualEvaluationPoints : list TracePoint)
    (initialPosition : Vector) (initialTime : R) (initialV : R) (initialVehId : Z)
    : Outcome unit * Trace :=
  addTracePoint (X initialPosition) (Y initialPosition) (TimeValue initialTime) initialV
    (mkTrace [] 0 None 0 0 0 initialPosition None initialTime initialVehId
       cls_virtualEvaluationPoints TRACE_N_MAX_default TRACE_LENGTH_MAX_default).

(** [forcePointCreation] *)
Definition forcePointCreation (position : Vector) (v : R) : M unit :=
  addTracePointByPosition position v.

(** [overwriteMaxTraceLength]; [None] stands for an omitted argument, whose
    default is [-1]. *)
Definition overwriteMaxTraceLength (maxNrOfPoints : option Z) (maxLength : option R) : M unit :=
  let maxNrOfPoints := match maxNrOfPoints with Some n => n | None => (-1)%Z end in
  let maxLength := match maxLength with Some l => l | None => -1 end in
  (if (negb (maxNrOfPoints =? 0)%Z && (0 <? maxNrOfPoints)%Z)%bool
   then modify (set_TRACE_N_MAX maxNrOfPoints) else ret tt) ;;;
  (if (negb (Reqb maxLength 0) && Rltb 0 maxLength)%bool
   then modify (set_TRACE_LENGTH_MAX maxLength) else ret tt).

Definition setReferencePosition (value : Vector) : M unit :=
  modify (set_referencePosition value).

(** [getPoints] *)
Definition getPoints : M (list TracePoint) := gets points.

(** [getEvaluationPoints]: [list.extend] works in place and returns [None],
    so the method returns [None] (here [@None (list TracePoint)]) and leaves
    the extended list in [points]. *)
Definition getEvaluationPoints : M (option (list TracePoint)) :=
  v <- gets virtualEvaluationPoints ;;
  modify (fun t => set_points (points t ++ v) t) ;;;
  ret None.

(** [calcCurrentTraceHeading] *)
Definition calcCurrentTraceHeading : M R :=
  ps <- gets points ;;
  if (1 <? List.length ps)%nat then
    match ps with
    | p0 :: p1 :: _ => ret (getDirection (tp_position p1) (tp_position p0))
    | _ => raise IndexError
    end
  else
    raise (NotEnoughTracePointsException
             (PyStr (NilZero.string_of_uint (Nat.to_uint (List.length ps))))).

(** The body of the [try] block of [processNewPosition]. *)
Definition processNewPosition_body (newPos : Vector) (curSpeed : R) : M unit :=
  cur <- gets currentPos ;;
  (match cur with
   | Some currentPos_ =>
       odo <- gets odometer ;;
       let edgelength := getDistance currentPos_ newPos in
       let newOdometer := odo + edgelength in
       ps <- gets points ;;
       (if (List.length ps <=? 0)%nat then
          addTracePointByPosition currentPos_ curSpeed
        else if Rleb TRACE_MIN_DIST odo then
          match ps with
          | [] => raise IndexError
          | p0 :: _ =>
              let lasttp := tp_position p0 in
              let dir := getDirection lasttp newPos in
              let newPosHeading := getDirection currentPos_ newPos in
              amin <- gets alphamin ;;
              amax <- gets alphamax ;;
              if Rleb TRACE_MAX_DIST newOdometer then
                addTracePointByPosition currentPos_ curSpeed
              else if Rltb TRACE_MAX_HEDINGDELTA (Rabs (dir - newPosHeading)) then
                addTracePointByPosition currentPos_ curSpeed
              else if (Rltb dir amin || Rltb amax dir)%bool then
                addTracePointByPosition currentPos_ curSpeed
              else ret tt
          end
        else ret tt) ;;;
       modify (fun t => set_odometer (odometer t + edgelength) t) ;;;
       ps' <- gets points ;;
       match ps' with
       | [] => raise IndexError
       | p0 :: _ =>
           let lasttp := tp_position p0 in
           let dist := getDistance lasttp newPos in
           let dir := getDirection lasttp newPos in
           if Rltb MATCH_MAX_OFFSET dist then
             let beta := asin (TRACE_MAX_OFFSET / dist) in
             let betamin := dir - beta in
             let betamax := dir + beta in
             amin <- gets alphamin ;;
             amax <- gets alphamax ;;
             if (Rleb amin betamin && Rleb betamin amax
                 || Rleb betamax amax && Rleb betamax amin)%bool then
               (if Rltb amin betamin then modify (set_alphamin betamin) else ret tt) ;;;
               (if Rltb betamax amax then modify (set_alphamax betamax) else ret tt)
             else ret tt
           else ret tt
       end
   | None => ret tt
   end) ;;;
  modify (set_currentPos (Some newPos)).

(** [processNewPosition]: returns [None] (here [Value tt]) or the handler's [1]. *)
Definition processNewPosition (newPos : Vector) (curSpeed : R) : Trace -> Ret unit * Trace :=
  try_except (processNewPosition_body newPos curSpeed).

(** [__calcEdgeDistance] *)
Definition calcEdgeDistance (edgeP1 edgeP2 P : Vector) : Outcome R :=
  let x := X P in
  let y := Y P in
  if negb (Reqb (X edgeP2) (X edgeP1)) then
    let yDiff := Y edgeP2 - Y edgeP1 in
    let xDiff := X edgeP2 - X edgeP1 in
    let a := yDiff / xDiff in
    let b := 1 in
    let c := - (Y edgeP1 - a * X edgeP1) in
    let normal := - a * x + b * y + c in
    Ok (Rabs (normal / sqrt (a * a + b * b)))
  else if negb (Reqb (Y edgeP2) (Y edgeP1)) then
    Ok (Rabs (x - X edgeP1))
  else
    Raise (NotEnoughTracePointsException (PyInt 1)).

(** [__getDirectionAngle] *)
Definition getDirectionAngle (anglePoint point1 point2 : Vector) : R :=
  Rabs (getDirection anglePoint point1 - getDirection anglePoint point2).

(** [__calcMatchQuality] *)
Definition calcMatchQuality (offset hddelta : R) : R :=
  7 / 10 * (1 - offset / MATCH_MAX_OFFSET)
  + 3 / 10 * (1 - hddelta / MATCH_MAX_HEADINGDELTA).

(** [__calcCombinedMatchQuality] *)
Definition calcCombinedMatchQuality (offset hddelta oldquality oldegodist : R) : R :=
  let smq := calcMatchQuality offset hddelta in
  let sf := Rmax 0 (1 - oldegodist / MATCH_DIST_SMOOTH) in
  let cmq := sf * oldquality + (1 - sf) * smq in
  cmq.

(** The local variables of [matchToPosition] that live across iterations of
    its sweep.  [oldMatchDistance] and [oldMatchQuality] are first assigned
    inside the loop body, so they start unbound ([None]). *)
Record MatchLoop : Type := mkMatchLoop {
  rp1 : option TracePoint;
  bmquality : R;
  bmoffset : R;
  bmrawdist : R;
  bmtp : option Vector;
  rawdist : R;
  oldMatchDistance : option R;
  oldMatchQuality : option R
}.

Definition MatchLoop_init : MatchLoop :=
  mkMatchLoop None 0 9999 0 None 0 None None.

(** One pass of the body of [for point in self.__points] once [rp1] is set. *)
Definition matchToPosition_step (position : Vector) (heading : R)
    (oldTraceMatch : option TraceMatch) (rp1_ rp2 : TracePoint) (s : MatchLoop)
    : Outcome MatchLoop :=
  obind (calcEdgeDistance (tp_position rp1_) (tp_position rp2) position) (fun offset =>
  let currentTraceDirection := getDirection (tp_position rp2) (tp_position rp1_) in
  let hddelta := Rabs (heading - currentTraceDirection) in
  let directionAngle1 := getDirectionAngle (tp_position rp2) position (tp_position rp1_) in
  let directionAngle1 :=
    if Rltb PI directionAngle1 then 2 * PI - directionAngle1 else directionAngle1 in
  let directionAngle2 := getDirectionAngle (tp_position rp1_) position (tp_position rp2) in
  let directionAngle2 :=
    if Rltb PI directionAngle2 then 2 * PI - directionAngle2 else directionAngle2 in
  let oldMatchDistance0 := 9999 in
  let oldMatchQuality0 := 0 in
  let rawdist' := rawdist s + getDistance (tp_position rp1_) (tp_position rp2) in
  if (Rleb offset MATCH_MAX_OFFSET && Rleb hddelta MATCH_MAX_HEADINGDELTA)%bool then
    let '(oldMatchDistance1, oldMatchQuality1, quality) :=
      match oldTraceMatch with
      | Some old =>
          (matchDistance old, matchQuality old,
           calcCombinedMatchQuality offset hddelta (matchQuality old) (matchDistance old))
      | None => (oldMatchDistance0, oldMatchQuality0, calcMatchQuality offset hddelta)
      end in
    if Rltb (bmquality s + QUALITY_DELTA) quality then
      Ok (mkMatchLoop (Some rp2) quality offset (rawdist s) (Some (tp_position rp1_))
            rawdist' (Some oldMatchDistance1) (Some oldMatchQuality1))
    else
      Ok (mkMatchLoop (Some rp2) (bmquality s) (bmoffset s) (bmrawdist s) (bmtp s)
            rawdist' (Some oldMatchDistance1) (Some oldMatchQuality1))
  else
    Ok (mkMatchLoop (Some rp2) (bmquality s) (bmoffset s) (bmrawdist s) (bmtp s)
          rawdist' (Some oldMatchDistance0) (Some oldMatchQuality0))).

Fixpoint matchToPosition_loop (position : Vector) (heading : R)
    (oldTraceMatch : option TraceMatch) (ps : list TracePoint) (s : MatchLoop)
    : Outcome MatchLoop :=
  match ps with
  | [] => Ok s
  | point :: rest =>
      match rp1 s with
      | None =>
          matchToPosition_loop position heading oldTraceMatch rest
            (mkMatchLoop (Some point) (bmquality s) (bmoffset s) (bmrawdist s) (bmtp s)
               (rawdist s) (oldMatchDistance s) (oldMatchQuality s))
      | Some rp1_ =>
          obind (matchToPosition_step position heading oldTraceMatch rp1_ point s)
            (matchToPosition_loop position heading oldTraceMatch rest)
      end
  end.

(** What follows the sweep in [matchToPosition]. *)
Definition matchToPosition_finish (position : Vector) (traceMatch : TraceMatch)
    (s : MatchLoop) : Outcome TraceMatch :=
  if Rltb (bmoffset s) 9999 then
    let matchrawdist := bmrawdist s in
    match bmtp s with
    | None => Raise AttributeError
    | Some matchtp =>
        let matchdist := getDistance position matchtp + matchrawdist in
        match oldMatchDistance s, oldMatchQuality s with
        | Some oldMatchDistance_, Some oldMatchQuality_ =>
            let '(matchdist, matchQuality_) :=
              if Rltb oldMatchDistance_ matchdist
              then (oldMatchDistance_, oldMatchQuality_)
              else (matchdist, bmquality s) in
            Ok (setMatchStatus STATUS_MATCH
                  (setMatchQuality matchQuality_
                     (setMatchDistance matchdist TraceMatch_init)))
        | _, _ => Raise UnboundLocalError
        end
    end
  else
    Ok (setMatchStatus STATUS_NO_MATCH_TRACE traceMatch).

(** The body of the [try] block of [matchToPosition]. *)
Definition matchToPosition_body (position : Vector) (heading : R)
    (forwardingArea : Area) (oldTraceMatch : option TraceMatch) : M TraceMatch :=
  let traceMatch := TraceMatch_init in
  ps <- gets points ;;
  if (List.length ps <? 2)%nat then ret traceMatch
  else if negb (forwardingArea (X position) (Y position)) then
    ret (setMatchStatus STATUS_NO_MATCH_RELEVANCE_AREA traceMatch)
  else
    refPos <- getReferencePosition ;;
    let directionToRefPos := getDirection position refPos in
    h1 <- calcCurrentTraceHeading ;;
    if Rltb (h1 + PI / 2) directionToRefPos then
      ret (setMatchStatus STATUS_NO_MATCH_HEADING traceMatch)
    else
      h2 <- calcCurrentTraceHeading ;;
      if Rltb directionToRefPos (h2 - PI / 2) then
        ret (setMatchStatus STATUS_NO_MATCH_HEADING traceMatch)
      else
        ps <- gets points ;;
        s <- lift (matchToPosition_loop position heading oldTraceMatch ps MatchLoop_init) ;;
        lift (matchToPosition_finish position traceMatch s).

(** [matchToPosition]: a [TraceMatch], or the handler's [1]. *)
Definition matchToPosition (position : Vector) (heading : R)
    (forwardingArea : Area) (oldTraceMatch : option TraceMatch)
    : Trace -> Ret TraceMatch * Trace :=
  try_except (matchToPosition_body position heading forwardingArea oldTraceMatch).

(** The local variables of [__matchToOtherTrace]. *)
Record OtherLoop : Type := mkOtherLoop {
  o_rp1 : option TracePoint;
  i2 : nat;
  totaloffsets : R;
  totalmatches : Z;
  dist : R
}.

(** The inner [while (i2 < len(rps2))] loop for the edge [rp1_ - rp2];
    [rest] is [rps2[i2:]]. *)
Fixpoint matchToOtherTrace_while (xoff yoff : R) (rp1_ rp2 : TracePoint)
    (rest : list TracePoint) (s : OtherLoop) : Outcome OtherLoop :=
  match rest with
  | [] => Ok s
  | q :: rest' =>
      let tmprp := mkVector (X (tp_position q) + xoff) (Y (tp_position q) + yoff) in
      obind (calcEdgeDistance (tp_position rp1_) (tp_position rp2) tmprp) (fun offset =>
      if Rltb offset MATCH_MAX_OFFSET then
        matchToOtherTrace_while xoff yoff rp1_ rp2 rest'
          (mkOtherLoop (o_rp1 s) (S (i2 s)) (totaloffsets s + offset)
             (totalmatches s + 1)
             (if (i2 s =? 0)%nat
              then dist s + getDistance (tp_position rp1_) tmprp else dist s))
      else
        Ok (mkOtherLoop (o_rp1 s) (i2 s) (totaloffsets s) (totalmatches s)
              (if (i2 s =? 0)%nat
               then dist s + getDistance (tp_position rp1_) (tp_position rp2)
               else dist s)))
  end.

(** The outer [for rp2 in rps1] loop. *)
Fixpoint matchToOtherTrace_for (xoff yoff : R) (rps2 : list TracePoint)
    (rps1 : list TracePoint) (s : OtherLoop) : Outcome OtherLoop :=
  match rps1 with
  | [] => Ok s
  | rp2 :: rest1 =>
      match o_rp1 s with
      | None =>
          matchToOtherTrace_for xoff yoff rps2 rest1
            (mkOtherLoop (Some rp2) (i2 s) (totaloffsets s) (totalmatches s) (dist s))
      | Some rp1_ =>
          obind (matchToOtherTrace_while xoff yoff rp1_ rp2 (skipn (i2 s) rps2) s)
            (fun s' =>
               matchToOtherTrace_for xoff yoff rps2 rest1
                 (mkOtherLoop (Some rp2) (i2 s') (totaloffsets s') (totalmatches s')
                    (dist s')))
      end
  end.

(** The body of the [try] block of [__matchToOtherTrace].  The quotient
    [totalmatches / len(rps2)] divides two Python 2 integers, hence [Z.div]. *)
Definition matchToOtherTrace_body (trace : Trace) (xoff yoff : R) : M R :=
  rps1 <- getPoints ;;
  let rps2 := points trace in
  s <- lift (matchToOtherTrace_for xoff yoff rps2 rps1 (mkOtherLoop None 0 0 0 0)) ;;
  if (0 <? totalmatches s)%Z then
    let avgoffset := totaloffsets s / IZR (totalmatches s) in
    let quality :=
      IZR (totalmatches s / Z.of_nat (List.length rps2))
      * (1 - avgoffset / MATCH_MAX_OFFSET) in
    ret quality
  else ret 0.

(** The number a [Ret R] stands for. *)
Definition Ret_number (r : Ret R) : R :=
  match r with
  | Value q => q
  | IntOne => 1
  end.

(** [__matchToOtherTrace] *)
Definition matchToOtherTrace_private (trace : Trace) (xoff yoff : R)
    : Trace -> Ret R * Trace :=
  try_except (matchToOtherTrace_body trace xoff yoff).

(** [matchToOtherTrace] *)
Definition matchToOtherTrace (atrace : Trace) : Trace -> Ret R * Trace :=
  fun self =>
    let a2xoff := X (referencePosition atrace) - X (referencePosition self) in
    let a2yoff := Y (referencePosition atrace) - Y (referencePosition self) in
    matchToOtherTrace_private atrace a2xoff a2yoff self.

(** * Specification-level definitions

    Closed forms of the states the operations produce, the invariants of
    the loops, sequences of calls with their admission log, and the example
    traces used below. *)

Definition ReadOnly {A} (m : M A) : Prop := forall t, snd (m t) = t.

(** The invariant of both loops of [__matchToOtherTrace]; [n] is
    [len(rps2)]. *)
Definition OtherLoop_inv (n : nat) (s : OtherLoop) : Prop :=
  0 <= totaloffsets s <= MATCH_MAX_OFFSET * IZR (totalmatches s)
  /\ (0 <= totalmatches s <= Z.of_nat (i2 s))%Z
  /\ (i2 s <= n)%nat.

(** The state [__addTracePoint] leaves behind when it does not raise. *)
Definition admitted_state (x y : R) (currenttime : TimeSlot) (velocity : R)
    (t : Trace) : Trace :=
  let full := (TRACE_N_MAX t <=? Z.of_nat (List.length (points t)))%Z in
  mkTrace
    (mkTracePoint (mkVector x y) currenttime velocity (vehID t)
       :: (if full then removelast (points t) else points t))
    0 (relevanceArea t)
    (if full then ntptotal t - 1 + 1 else ntptotal t + 1)%Z
    0 (2 * PI) (referencePosition t) (currentPos t) (initialTime t) (vehID t)
    (if (full && Rltb (calcTraceLength_loop None 0 (points t))
                   MIN_EVALUATION_TRACE_LENGHT)%bool
     then match rev (points t) with
          | oldest :: _ => oldest :: virtualEvaluationPoints t
          | [] => virtualEvaluationPoints t
          end
     else virtualEvaluationPoints t)
    (TRACE_N_MAX t) (TRACE_LENGTH_MAX t).

(** The admission criteria of [processNewPosition], as the specification
    lists them: no point yet, or enough odometer and one of: maximum
    distance reached, heading difference too large, direction outside the
    tube. *)
Definition admits (newPos : Vector) (t : Trace) : bool :=
  match currentPos t with
  | None => false
  | Some cur =>
      match points t with
      | [] => true
      | p0 :: _ =>
          let dir := getDirection (tp_position p0) newPos in
          let newPosHeading := getDirection cur newPos in
          (Rleb TRACE_MIN_DIST (odometer t)
           && (Rleb TRACE_MAX_DIST (odometer t + getDistance cur newPos)
               || Rltb TRACE_MAX_HEDINGDELTA (Rabs (dir - newPosHeading))
               || Rltb dir (alphamin t)
               || Rltb (alphamax t) dir))%bool
      end
  end.

(** The re-computation of the tube at the end of [processNewPosition]. *)
Definition narrow_tube (newPos : Vector) (t : Trace) : Trace :=
  match points t with
  | [] => t
  | p0 :: _ =>
      let dist := getDistance (tp_position p0) newPos in
      let dir := getDirection (tp_position p0) newPos in
      let beta := asin (TRACE_MAX_OFFSET / dist) in
      let betamin := dir - beta in
      let betamax := dir + beta in
      if (Rltb MATCH_MAX_OFFSET dist
          && (Rleb (alphamin t) betamin && Rleb betamin (alphamax t)
              || Rleb betamax (alphamax t) && Rleb betamax (alphamin t)))%bool
      then
        set_alphamax (if Rltb betamax (alphamax t) then betamax else alphamax t)
          (set_alphamin (if Rltb (alphamin t) betamin then betamin else alphamin t) t)
      else t
  end.

(** The state after a call of [processNewPosition] that does not raise. *)
Definition processed_state (newPos : Vector) (curSpeed : R) (t : Trace) : Trace :=
  match currentPos t with
  | None => set_currentPos (Some newPos) t
  | Some cur =>
      let t1 := if admits newPos t
                then admitted_state (X cur) (Y cur) NowFunction curSpeed t
                else t in
      let t2 := set_odometer (odometer t1 + getDistance cur newPos) t1 in
      set_currentPos (Some newPos) (narrow_tube newPos t2)
  end.

Ltac finish_tube Hne :=
  match goal with
  | |- context [points ?s] =>
      let H := fresh "Hpts" in
      let p := fresh "p" in
      let r := fresh "r" in
      destruct (points s) as [| p r] eqn:H;
      [ exfalso; apply Hne in H; exact H
      | cbv beta iota;
        destruct (Rltb MATCH_MAX_OFFSET (getDistance (tp_position p) _));
        cbn [andb]; [| reflexivity];
        match goal with
        | |- context [if (?g1 || ?g2)%bool then _ else _] =>
            destruct (g1 || g2)%bool; [| reflexivity]
        end;
        repeat match goal with
               | |- context [if Rltb ?a ?b then _ else _] => destruct (Rltb a b)
               end;
        reflexivity ]
  end.

(** The trace after a sequence of calls [processNewPosition(newPos, curSpeed)]. *)
Fixpoint run (calls : list (Vector * R)) (t : Trace) : Trace :=
  match calls with
  | [] => t
  | (newPos, curSpeed) :: rest =>
      run rest (snd (processNewPosition newPos curSpeed t))
  end.

(** The admission log of a sequence of calls, newest entry first: the call
    number [tick] is recorded with the point whenever the call admits one.
    The points themselves carry no usable time stamp (see [TimeSlot]), so
    the order of admission is kept here. *)
Fixpoint admission_log (tick : nat) (calls : list (Vector * R)) (t : Trace)
    (log : list (nat * TracePoint)) : list (nat * TracePoint) :=
  match calls with
  | [] => log
  | (newPos, curSpeed) :: rest =>
      let log' :=
        match currentPos t with
        | Some cur =>
            if admits newPos t
            then (tick, mkTracePoint (mkVector (X cur) (Y cur)) NowFunction
                          curSpeed (vehID t)) :: log
            else log
        | None => log
        end in
      admission_log (S tick) rest (snd (processNewPosition newPos curSpeed t)) log'
  end.

(** Entries are strictly ordered by admission tick, newest first. *)
Definition newest_first (log : list (nat * TracePoint)) : Prop :=
  StronglySorted (fun a b => (fst b < fst a)%nat) log.

(** The live points are the most recent entries of the log, in its order. *)
Definition live_prefix (t : Trace) (log : list (nat * TracePoint)) : Prop :=
  points t = map snd (firstn (List.length (points t)) log).

Definition trace_inv (tick : nat) (t : Trace) (log : list (nat * TracePoint)) : Prop :=
  (0 < TRACE_N_MAX t)%Z
  /\ (Z.of_nat (List.length (points t)) <= TRACE_N_MAX t)%Z
  /\ live_prefix t log
  /\ newest_first log
  /\ Forall (fun e => (fst e < tick)%nat) log.

Definition tube_example : Trace :=
  run [(mkVector (-30) 1, 10); (mkVector (-30) 0, 10)]
    (snd (Trace_init [] (mkVector 0 0) 0 10 1)).

Definition fresh_trace : Trace :=
  mkTrace [mkTracePoint (mkVector 0 0) (TimeValue 0) 10 1] 0 None 1 0 (2 * PI)
    (mkVector 0 0) (Some (mkVector 0 0)) 0 1 [] 16 2500.

Definition turn_trace : Trace :=
  snd ((forcePointCreation (mkVector 0 15) 10 ;;;
        forcePointCreation (mkVector 0 30) 10 ;;;
        setReferencePosition (mkVector 0 40))
         (snd (Trace_init [] (mkVector 100 15) 0 10 1))).

Definition turn_P0 : TracePoint := mkTracePoint (mkVector 0 30) NowFunction 10 1.
Definition turn_P1 : TracePoint := mkTracePoint (mkVector 0 15) NowFunction 10 1.
Definition turn_P2 : TracePoint := mkTracePoint (mkVector 100 15) (TimeValue 0) 10 1.

(** * Further operations of [Trace.py] and [GeoShapes.py] *)

(** [calcEvaluationTraceLength] *)
Definition calcEvaluationTraceLength : M R :=
  v <- gets virtualEvaluationPoints ;;
  let length := calcTraceLength_loop None 0 v in
  l <- calcTraceLength ;;
  ret (l + length).

(** [calcNrOfEvaluationPoints] *)
Definition calcNrOfEvaluationPoints : M nat :=
  ps <- gets points ;;
  v <- gets virtualEvaluationPoints ;;
  ret (List.length ps + List.length v)%nat.

(** The loop of [calcHeadingForwardingArea]: [tPos] is its variable, left
    at the first point farther than [d] from [refPos] (the [break]) or at
    the last point visited. *)
Fixpoint calcHeadingForwardingArea_loop (refPos : Vector) (d : R) (tPos : Vector)
    (tracePoints : list TracePoint) : Vector :=
  match tracePoints with
  | [] => tPos
  | tracePos :: rest =>
      let tPos := tp_position tracePos in
      let curdist := getDistance tPos refPos in
      if Rltb d curdist then tPos
      else calcHeadingForwardingArea_loop refPos d tPos rest
  end.

(** [calcHeadingForwardingArea] *)
Definition calcHeadingForwardingArea (tracePoints : list TracePoint)
    (refPos : Vector) (d : R) : R :=
  let tPos := mkVector 0 0 in
  getDirection refPos (calcHeadingForwardingArea_loop refPos d tPos tracePoints).

(** [GeoShapes.Circle] *)
Record Circle : Type := mkCircle { center : Vector; radius : R }.

Definition Circle_area (c : Circle) : Area := Circle_contains (center c) (radius c).

(** The body of the [try] block of [createCircularArea]. *)
Definition createCircularArea_body (radius_ offset : R) : M Circle :=
  refPos <- gets referencePosition ;;
  let d := radius_ - offset in
  let refPosWithOffsetX := X refPos in
  let refPosWithOffsetY := Y refPos in
  if negb (Reqb offset 0) then
    points_ <- gets points ;;
    let circHeading := calcHeadingForwardingArea points_ refPos d in
    if negb (Reqb circHeading MAX_VALUE) then
      let refPosWithOffsetX := X refPos + offset * sin circHeading in
      let refPosWithOffsetY := Y refPos + offset * cos circHeading in
      ret (mkCircle (mkVector refPosWithOffsetX refPosWithOffsetY) radius_)
    else
      ret (mkCircle (mkVector refPosWithOffsetX refPosWithOffsetY) radius_)
  else
    ret (mkCircle (mkVector refPosWithOffsetX refPosWithOffsetY) radius_).

(** [createCircularArea]: a [Circle], or the handler's [1]. *)
Definition createCircularArea (radius_ offset : R) : Trace -> Ret Circle * Trace :=
  try_except (createCircularArea_body radius_ offset).

(** [GeoShapes.Rectangle] *)
Record Rectangle : Type := mkRectangle { p1 : Vector; p2 : Vector; width : R }.

(** [Rectangle.getLength] *)
Definition Rectangle_getLength (r : Rectangle) : R :=
  sqrt ((X (p1 r) - X (p2 r)) ^ 2 + (Y (p1 r) - Y (p2 r)) ^ 2).

(** [Rectangle.getHeading] *)
Definition Rectangle_getHeading (r : Rectangle) : R :=
  let origin := mkVector 0 1 in
  let x := X (p2 r) - X (p1 r) in
  let y := Y (p2 r) - Y (p1 r) in
  let scaledPosition := mkVector x y in
  getAngle origin scaledPosition.

(** [Rectangle.getP3] *)
Definition Rectangle_getP3 (r : Rectangle) : Vector :=
  let x3 := X (p2 r) - width r * cos (Rectangle_getHeading r) in
  let y3 := Y (p2 r) - width r * sin (Rectangle_getHeading r) in
  mkVector x3 y3.

(** [Rectangle.getP4] *)
Definition Rectangle_getP4 (r : Rectangle) : Vector :=
  let x4 := X (p1 r) - width r * cos (Rectangle_getHeading r) in
  let y4 := Y (p1 r) - width r * sin (Rectangle_getHeading r) in
  mkVector x4 y4.

(** The variables of the ray casting loop of [Rectangle.contains];
    [xinters] is unbound until the first edge with [p1y != p2y]. *)
Record RayLoop : Type := mkRayLoop {
  inside : bool;
  p1x : R;
  p1y : R;
  xinters : option R
}.

(** One pass of [for i in range(n+1)] with [(p2x, p2y) = poly[i % n]]. *)
Definition Rectangle_contains_step (x y : R) (s : RayLoop) (q : R * R)
    : Outcome RayLoop :=
  let '(p2x, p2y) := q in
  if Rltb (Rmin (p1y s) p2y) y then
    if Rleb y (Rmax (p1y s) p2y) then
      if Rleb x (Rmax (p1x s) p2x) then
        let xinters' :=
          if negb (Reqb (p1y s) p2y)
          then Some ((y - p1y s) * (p2x - p1x s) / (p2y - p1y s) + p1x s)
          else xinters s in
        if Reqb (p1x s) p2x then
          Ok (mkRayLoop (negb (inside s)) p2x p2y xinters')
        else
          match xinters' with
          | None => Raise UnboundLocalError
          | Some xi =>
              if Rleb x xi
              then Ok (mkRayLoop (negb (inside s)) p2x p2y xinters')
              else Ok (mkRayLoop (inside s) p2x p2y xinters')
          end
      else Ok (mkRayLoop (inside s) p2x p2y (xinters s))
    else Ok (mkRayLoop (inside s) p2x p2y (xinters s))
  else Ok (mkRayLoop (inside s) p2x p2y (xinters s)).

Fixpoint Rectangle_contains_loop (x y : R) (qs : list (R * R)) (s : RayLoop)
    : Outcome RayLoop :=
  match qs with
  | [] => Ok s
  | q :: rest =>
      obind (Rectangle_contains_step x y s q) (Rectangle_contains_loop x y rest)
  end.

(** [Rectangle.contains] *)
Definition Rectangle_contains (r : Rectangle) (x y : R) : Outcome bool :=
  let x1 := X (p1 r) in
  let y1 := Y (p1 r) in
  let x2 := X (p2 r) in
  let y2 := Y (p2 r) in
  let x3 := X (Rectangle_getP3 r) in
  let y3 := Y (Rectangle_getP3 r) in
  let x4 := X (Rectangle_getP4 r) in
  let y4 := Y (Rectangle_getP4 r) in
  let poly := [(x1, y1); (x2, y2); (x3, y3); (x4, y4)] in
  obind (Rectangle_contains_loop x y (poly ++ [(x1, y1)])
           (mkRayLoop false x1 y1 None))
    (fun s => Ok (inside s)).

(** The loop of [calculateRectangularArea] that derives the width from the
    deviation of the trace points; [maxoffset] is its variable. *)
Fixpoint maxoffset_loop (refPos oldest : Vector) (ps : list TracePoint)
    (maxoffset : R) : Outcome R :=
  match ps with
  | [] => Ok maxoffset
  | point :: rest =>
      if negb (Reqb (X oldest) (X refPos) && Reqb (Y oldest) (Y refPos))%bool then
        obind (calcEdgeDistance refPos oldest (tp_position point)) (fun dev =>
          maxoffset_loop refPos oldest rest
            (if Rltb maxoffset dev then dev else maxoffset))
      else maxoffset_loop refPos oldest rest maxoffset
  end.

(** The body of the [try] block of [calculateRectangularArea]. *)
Definition calculateRectangularArea_body (width_ length offset : R) : M Rectangle :=
  refPos <- gets referencePosition ;;
  ps <- gets points ;;
  hwl <-
    (if (0 <? List.length ps)%nat then
       match rev ps with
       | [] => raise IndexError
       | oldestTracePoint :: _ =>
           let traceDist := getDistance refPos (tp_position oldestTracePoint) in
           let length := if Rltb traceDist length then traceDist - offset else length in
           let d := length - offset in
           let rectHeading := calcHeadingForwardingArea ps refPos d in
           if Rltb width_ 0 then
             maxoffset <- lift (maxoffset_loop refPos (tp_position oldestTracePoint) ps 0) ;;
             ret (rectHeading, 2 * (maxoffset + AREA_WIDTH_OVERFLOW), length)
           else ret (rectHeading, width_, length)
       end
     else
       let rectHeading := 0 in
       ret (rectHeading, (if Rleb width_ 0 then length else width_), length)) ;;
  let '(rectHeading, width_, length) := hwl in
  let sinHeading := sin rectHeading in
  let cosHeading := cos rectHeading in
  let normAbs := Rabs (sinHeading * cosHeading) in
  let signIndicator :=
    if Reqb normAbs 0 then sinHeading + cosHeading
    else sinHeading * cosHeading / normAbs in
  let signedWidth := signIndicator * width_ in
  let projectedX1 := X refPos + signedWidth / 2 * sinHeading in
  let projectedY1 := Y refPos + signedWidth / 2 * cosHeading in
  let rotatedX1withOffset := projectedX1 - offset * sinHeading in
  let rotatedY1withOffset := projectedY1 + offset * cosHeading in
  let rotatedX2withOffset := rotatedX1withOffset - length * sinHeading in
  let rotatedY2withOffset := rotatedY1withOffset + length * cosHeading in
  let p1_ := mkVector rotatedX1withOffset rotatedY1withOffset in
  let p2_ := mkVector rotatedX2withOffset rotatedY2withOffset in
  ret (mkRectangle p1_ p2_ width_).

(** [calculateRectangularArea]: a [Rectangle], or the handler's [1]. *)
Definition calculateRectangularArea (width_ length offset : R)
    : Trace -> Ret Rectangle * Trace :=
  try_except (calculateRectangularArea_body width_ length offset).

(** [calculateWideRectangularArea] *)
Definition calculateWideRectangularArea (length offset : R)
    : Trace -> Ret Rectangle * Trace :=
  calculateRectangularArea (-1) length offset.

(** A public operation that changes a trace, with its arguments. *)
Inductive TraceOp : Type :=
| OpProcessNewPosition (newPos : Vector) (curSpeed : R)
| OpForcePointCreation (position : Vector) (v : R)
| OpOverwriteMaxTraceLength (maxNrOfPoints : option Z) (maxLength : option R)
| OpSetReferencePosition (value : Vector).

(** The trace an operation leaves behind, and whether the call ended
    normally ([true]) or raised, respectively returned the handler's [1]. *)
Definition apply_op (op : TraceOp) (t : Trace) : bool * Trace :=
  match op with
  | OpProcessNewPosition newPos curSpeed =>
      match processNewPosition newPos curSpeed t with
      | (Value _, t') => (true, t')
      | (IntOne, t') => (false, t')
      end
  | OpForcePointCreation position v =>
      match forcePointCreation position v t with
      | (Ok _, t') => (true, t')
      | (Raise _, t') => (false, t')
      end
  | OpOverwriteMaxTraceLength n l =>
      match overwriteMaxTraceLength n l t with
      | (Ok _, t') => (true, t')
      | (Raise _, t') => (false, t')
      end
  | OpSetReferencePosition value =>
      match setReferencePosition value t with
      | (Ok _, t') => (true, t')
      | (Raise _, t') => (false, t')
      end
  end.

(** A sequence of operations: the final trace, and whether every call
    ended normally. *)
Fixpoint apply_ops (ops : list TraceOp) (t : Trace) : bool * Trace :=
  match ops with
  | [] => (true, t)
  | op :: rest =>
      let '(ok, t') := apply_op op t in
      let '(oks, t'') := apply_ops rest t' in
      ((ok && oks)%bool, t'')
  end.

(** The length of the polyline through a list of positions. *)
Fixpoint path_length (vs : list Vector) : R :=
  match vs with
  | [] => 0
  | v :: rest =>
      match rest with
      | [] => 0
      | w :: _ => getDistance w v + path_length rest
      end
  end.

(** No two neighbouring points of the list share their position. *)
Fixpoint distinct_neighbours (ps : list TracePoint) : Prop :=
  match ps with
  | [] => True
  | p :: rest =>
      match rest with
      | [] => True
      | q :: _ =>
          ~ (X (tp_position q) = X (tp_position p)
             /\ Y (tp_position q) = Y (tp_position p))
          /\ distinct_neighbours rest
      end
  end.

(** ** Invariants and examples for the further properties *)

Definition ops_inv (id : Z) (t : Trace) : Prop :=
  (0 < TRACE_N_MAX t)%Z
  /\ points t <> []
  /\ ntptotal t = Z.of_nat (List.length (points t))
  /\ vehID t = id
  /\ Forall (fun p => tp_vehID p = id) (points t).




Definition two_point_trace : Trace :=
  mkTrace [mkTracePoint (mkVector 0 30) NowFunction 10 1;
           mkTracePoint (mkVector 0 15) NowFunction 10 1]
    0 None 2 0 (2 * PI) (mkVector 0 40) None 0 1 [] 16 2500.

Definition MatchLoop_bound (s : MatchLoop) : Prop :=
  bmoffset s = 9999
  \/ (exists v d q,
         bmtp s = Some v /\ oldMatchDistance s = Some d /\ oldMatchQuality s = Some q).

Definition OtherLoop_exact (s : OtherLoop) : Prop :=
  0 <= totaloffsets s
  /\ totaloffsets s <= MATCH_MAX_OFFSET * IZR (totalmatches s)
  /\ ((0 < totalmatches s)%Z ->
      totaloffsets s < MATCH_MAX_OFFSET * IZR (totalmatches s))
  /\ totalmatches s = Z.of_nat (i2 s).

(** * Properties *)

(** ** Comparisons on real numbers *)

Lemma Rltb_true x y : Rltb x y = true <-> x < y.
Proof. unfold Rltb; destruct (Rlt_dec x y); split; intros; try discriminate; tauto. Qed.

Lemma Rltb_false x y : Rltb x y = false <-> y <= x.
Proof.
  unfold Rltb; destruct (Rlt_dec x y); split; intros; try discriminate; try lra; auto.
Qed.

Lemma Rleb_true x y : Rleb x y = true <-> x <= y.
Proof. unfold Rleb; destruct (Rle_dec x y); split; intros; try discriminate; tauto. Qed.

Lemma Rleb_false x y : Rleb x y = false <-> y < x.
Proof.
  unfold Rleb; destruct (Rle_dec x y); split; intros; try discriminate; try lra; auto.
Qed.

Lemma Reqb_true x y : Reqb x y = true <-> x = y.
Proof. unfold Reqb; destruct (Req_dec_T x y); split; intros; try discriminate; tauto. Qed.

Lemma Reqb_false x y : Reqb x y = false <-> x <> y.
Proof. unfold Reqb; destruct (Req_dec_T x y); split; intros; try discriminate; tauto. Qed.

(** ** Read-only computations *)

Lemma ReadOnly_ret {A} (a : A) : ReadOnly (ret a).
Proof. intro t; reflexivity. Qed.

Lemma ReadOnly_raise {A} (e : Exn) : ReadOnly (@raise A e).
Proof. intro t; reflexivity. Qed.

Lemma ReadOnly_gets {A} (f : Trace -> A) : ReadOnly (gets f).
Proof. intro t; reflexivity. Qed.

Lemma ReadOnly_lift {A} (o : Outcome A) : ReadOnly (lift o).
Proof. intro t; reflexivity. Qed.

Lemma ReadOnly_bind {A B} (m : M A) (k : A -> M B) :
  ReadOnly m -> (forall a, ReadOnly (k a)) -> ReadOnly (bind m k).
Proof.
  intros Hm Hk t. unfold bind.
  specialize (Hm t). destruct (m t) as [[a | e] t']; simpl in Hm; subst t'.
  - apply Hk.
  - reflexivity.
Qed.

Lemma ReadOnly_if {A} (b : bool) (m1 m2 : M A) :
  ReadOnly m1 -> ReadOnly m2 -> ReadOnly (if b then m1 else m2).
Proof. destruct b; auto. Qed.

Lemma ReadOnly_try_except {A} (m : M A) :
  ReadOnly m -> forall t, snd (try_except m t) = t.
Proof.
  intros Hm t. unfold try_except. specialize (Hm t).
  destruct (m t) as [[a | e] t']; exact Hm.
Qed.

Create HintDb readonly.
#[local] Hint Resolve ReadOnly_ret ReadOnly_raise ReadOnly_gets ReadOnly_lift
  ReadOnly_if : readonly.

Lemma ReadOnly_calcCurrentTraceHeading : ReadOnly calcCurrentTraceHeading.
Proof.
  unfold calcCurrentTraceHeading. apply ReadOnly_bind; auto with readonly.
  intros ps. apply ReadOnly_if; auto with readonly.
  destruct ps as [| p0 [| p1 rest]]; auto with readonly.
Qed.

Lemma ReadOnly_getReferencePosition : ReadOnly getReferencePosition.
Proof. apply ReadOnly_gets. Qed.

#[local] Hint Resolve ReadOnly_calcCurrentTraceHeading
  ReadOnly_getReferencePosition : readonly.

Lemma ReadOnly_matchToPosition_body position heading area prior :
  ReadOnly (matchToPosition_body position heading area prior).
Proof.
  unfold matchToPosition_body.
  apply ReadOnly_bind; auto with readonly. intros ps.
  repeat (apply ReadOnly_if; auto with readonly).
  apply ReadOnly_bind; auto with readonly. intros refPos.
  apply ReadOnly_bind; auto with readonly. intros h1.
  apply ReadOnly_if; auto with readonly.
  apply ReadOnly_bind; auto with readonly. intros h2.
  apply ReadOnly_if; auto with readonly.
  apply ReadOnly_bind; auto with readonly. intros ps'.
  apply ReadOnly_bind; auto with readonly.
Qed.

(** C10: [matchToPosition] leaves every attribute of the trace as it found
    it, whatever the position, heading, area and previous match, and
    whether it returns a [TraceMatch] or the handler's [1]. *)
Theorem matchToPosition_frame :
  forall (position : Vector) (heading : R) (forwardingArea : Area)
         (oldTraceMatch : option TraceMatch) (t : Trace),
    let t' := snd (matchToPosition position heading forwardingArea oldTraceMatch t) in
    t' = t /\
    points t' = points t /\ odometer t' = odometer t /\
    alphamin t' = alphamin t /\ alphamax t' = alphamax t /\
    referencePosition t' = referencePosition t /\
    currentPos t' = currentPos t /\
    virtualEvaluationPoints t' = virtualEvaluationPoints t.
Proof.
  intros position heading area prior t t'.
  assert (E : t' = t).
  { unfold t', matchToPosition. apply ReadOnly_try_except.
    apply ReadOnly_matchToPosition_body. }
  rewrite E. repeat split.
Qed.

(** C6: on a trace with fewer than two points [matchToPosition] returns the
    default [TraceMatch] (quality 0, distance 9999, status
    [STATUS_NO_MATCH_UNDEFINED]) for all arguments. *)
Theorem matchToPosition_few_points :
  forall (position : Vector) (heading : R) (forwardingArea : Area)
         (oldTraceMatch : option TraceMatch) (t : Trace),
    (List.length (points t) < 2)%nat ->
    fst (matchToPosition position heading forwardingArea oldTraceMatch t)
    = Value (mkTraceMatch 0 9999 STATUS_NO_MATCH_UNDEFINED).
Proof.
  intros position heading area prior t Hlen.
  unfold matchToPosition, try_except, matchToPosition_body, bind, gets.
  apply Nat.ltb_lt in Hlen. rewrite Hlen. reflexivity.
Qed.

(** C7: [calcCurrentTraceHeading] raises [NotEnoughTracePointsException]
    exactly when the trace has fewer than two points; with two or more it
    returns the direction from the second newest point to the newest one. *)
Theorem calcCurrentTraceHeading_spec :
  forall t : Trace,
    ((exists value, fst (calcCurrentTraceHeading t)
                    = Raise (NotEnoughTracePointsException value))
     <-> (List.length (points t) < 2)%nat)
    /\ ((exists e, fst (calcCurrentTraceHeading t) = Raise e)
        <-> (List.length (points t) < 2)%nat)
    /\ fst (calcCurrentTraceHeading t)
       = match points t with
         | p0 :: p1 :: _ => Ok (getDirection (tp_position p1) (tp_position p0))
         | ps => Raise (NotEnoughTracePointsException
                          (PyStr (NilZero.string_of_uint (Nat.to_uint (List.length ps)))))
         end.
Proof.
  intros t. unfold calcCurrentTraceHeading, bind, gets.
  destruct (points t) as [| p0 [| p1 rest]]; simpl.
  - repeat split; intros; try lia; eauto.
  - repeat split; intros; try lia; eauto.
  - repeat split; intros H; try (simpl in H; lia);
      destruct H as [v H]; discriminate H.
Qed.

(** C9, as the source behaves: [getEvaluationPoints] returns [None], not the
    concatenation of the live points and the virtual evaluation points;
    the concatenation is what it leaves in the live point list. *)
Theorem getEvaluationPoints_returns_None :
  forall t : Trace,
    fst (getEvaluationPoints t) = Ok None
    /\ fst (getEvaluationPoints t)
       <> Ok (Some (points t ++ virtualEvaluationPoints t))
    /\ points (snd (getEvaluationPoints t))
       = points t ++ virtualEvaluationPoints t.
Proof.
  intros t. unfold getEvaluationPoints, bind, gets, modify, ret. simpl.
  repeat split. discriminate.
Qed.

(** ** Match quality *)

Lemma MATCH_MAX_HEADINGDELTA_pos : 0 < MATCH_MAX_HEADINGDELTA.
Proof.
  unfold MATCH_MAX_HEADINGDELTA, radians. pose proof PI_RGT_0. lra.
Qed.

(** C5: with the previous match distance in [[0, MATCH_DIST_SMOOTH]] (and
    offset and heading difference within the matching limits) the combined
    quality lies between the smaller and the larger of the previous quality
    and the single match quality. *)
Theorem calcCombinedMatchQuality_between :
  forall offset hddelta oldquality oldegodist : R,
    0 <= offset <= MATCH_MAX_OFFSET ->
    0 <= hddelta <= MATCH_MAX_HEADINGDELTA ->
    0 <= oldegodist <= MATCH_DIST_SMOOTH ->
    Rmin oldquality (calcMatchQuality offset hddelta)
    <= calcCombinedMatchQuality offset hddelta oldquality oldegodist
    <= Rmax oldquality (calcMatchQuality offset hddelta).
Proof.
  intros offset hddelta oldquality oldegodist _ _ Hd.
  unfold calcCombinedMatchQuality, MATCH_DIST_SMOOTH in *.
  set (smq := calcMatchQuality offset hddelta).
  set (sf := Rmax 0 (1 - oldegodist / 20)).
  assert (Hsf : 0 <= sf <= 1).
  { unfold sf, Rmax. destruct (Rle_dec 0 (1 - oldegodist / 20)); lra. }
  unfold Rmin, Rmax.
  destruct (Rle_dec oldquality smq); split; nra.
Qed.

Lemma calcCombinedMatchQuality_between_witness :
  Rmin (1 / 2) (calcMatchQuality 0 0)
  <= calcCombinedMatchQuality 0 0 (1 / 2) 5
  <= Rmax (1 / 2) (calcMatchQuality 0 0).
Proof.
  apply (calcCombinedMatchQuality_between 0 0 (1 / 2) 5).
  - unfold MATCH_MAX_OFFSET; lra.
  - pose proof MATCH_MAX_HEADINGDELTA_pos; lra.
  - unfold MATCH_DIST_SMOOTH; lra.
Defined.

(** ** Trace against trace *)

Lemma calcEdgeDistance_nonneg e1 e2 p o :
  calcEdgeDistance e1 e2 p = Ok o -> 0 <= o.
Proof.
  unfold calcEdgeDistance.
  destruct (negb (Reqb (X e2) (X e1))).
  - intros H; inversion H; apply Rabs_pos.
  - destruct (negb (Reqb (Y e2) (Y e1))); intros H; inversion H; apply Rabs_pos.
Qed.

Lemma matchToOtherTrace_while_inv n xoff yoff r1 r2 :
  forall rest s s',
    OtherLoop_inv n s ->
    (i2 s + List.length rest <= n)%nat ->
    matchToOtherTrace_while xoff yoff r1 r2 rest s = Ok s' ->
    OtherLoop_inv n s'.
Proof.
  induction rest as [| q rest IH]; intros s s' Hinv Hlen Hrun; simpl in Hrun.
  - inversion Hrun; subst; exact Hinv.
  - destruct (calcEdgeDistance _ _ _) as [offset |] eqn:Hoff; simpl in Hrun;
      [| discriminate].
    apply calcEdgeDistance_nonneg in Hoff.
    destruct Hinv as [[Ht0 Ht1] [Hm Hi]].
    destruct (Rltb offset MATCH_MAX_OFFSET) eqn:Hlt.
    + apply Rltb_true in Hlt.
      apply IH in Hrun; [exact Hrun | | simpl in *; lia].
      unfold OtherLoop_inv; simpl. rewrite plus_IZR.
      unfold MATCH_MAX_OFFSET in *. simpl in Hlen.
      repeat split; try lra; lia.
    + inversion Hrun; subst. unfold OtherLoop_inv; simpl.
      repeat split; try lra; lia.
Qed.

Lemma matchToOtherTrace_for_inv xoff yoff rps2 :
  forall rps1 s s',
    OtherLoop_inv (List.length rps2) s ->
    matchToOtherTrace_for xoff yoff rps2 rps1 s = Ok s' ->
    OtherLoop_inv (List.length rps2) s'.
Proof.
  induction rps1 as [| r2 rest1 IH]; intros s s' Hinv Hrun; simpl in Hrun.
  - inversion Hrun; subst; exact Hinv.
  - destruct (o_rp1 s) as [r1 |].
    + destruct (matchToOtherTrace_while _ _ _ _ _ _) as [s1 |] eqn:Hw;
        simpl in Hrun; [| discriminate].
      apply matchToOtherTrace_while_inv with (n := List.length rps2) in Hw.
      * apply IH in Hrun; [exact Hrun |]. exact Hw.
      * exact Hinv.
      * destruct Hinv as [_ [_ Hi]]. rewrite length_skipn. lia.
    + apply IH in Hrun; [exact Hrun |]. exact Hinv.
Qed.

(** C8: for every pair of traces the value returned by [matchToOtherTrace]
    (a quality, the integer [0], or the handler's [1]) lies in [[0, 1]]. *)
Theorem matchToOtherTrace_range :
  forall self atrace : Trace,
    0 <= Ret_number (fst (matchToOtherTrace atrace self)) <= 1.
Proof.
  intros self atrace.
  unfold matchToOtherTrace, matchToOtherTrace_private, try_except,
    matchToOtherTrace_body, bind, getPoints, gets, lift.
  set (xoff := X (referencePosition atrace) - X (referencePosition self)).
  set (yoff := Y (referencePosition atrace) - Y (referencePosition self)).
  destruct (matchToOtherTrace_for xoff yoff (points atrace) (points self)
              (mkOtherLoop None 0 0 0 0)) as [s |] eqn:Hrun; simpl; [| lra].
  apply matchToOtherTrace_for_inv in Hrun.
  2:{ unfold OtherLoop_inv, MATCH_MAX_OFFSET; simpl. repeat split; try lra; lia. }
  destruct Hrun as [[Ht0 Ht1] [[Hm0 Hm1] Hi]].
  destruct (0 <? totalmatches s)%Z eqn:Hpos; simpl; [| lra].
  apply Z.ltb_lt in Hpos.
  assert (Hm : 0 < IZR (totalmatches s)) by (apply IZR_lt; exact Hpos).
  assert (Havg : 0 <= totaloffsets s / IZR (totalmatches s) <= MATCH_MAX_OFFSET).
  { split.
    - apply Rmult_le_pos; [lra | left; apply Rinv_0_lt_compat; exact Hm].
    - apply Rmult_le_reg_r with (r := IZR (totalmatches s)); [exact Hm |].
      unfold Rdiv. rewrite Rmult_assoc, Rinv_l by lra. lra. }
  unfold MATCH_MAX_OFFSET in *.
  destruct (Z.eq_dec (totalmatches s) (Z.of_nat (List.length (points atrace))))
    as [Heq | Hne].
  - rewrite <- Heq, Z_div_same by lia. lra.
  - rewrite Z.div_small by lia. lra.
Qed.

(** ** Admission of trace points *)

Lemma Trace_eta (t : Trace) :
  mkTrace (points t) (odometer t) (relevanceArea t) (ntptotal t) (alphamin t)
    (alphamax t) (referencePosition t) (currentPos t) (initialTime t) (vehID t)
    (virtualEvaluationPoints t) (TRACE_N_MAX t) (TRACE_LENGTH_MAX t) = t.
Proof. destruct t; reflexivity. Qed.

Lemma addTracePoint_ok x y currenttime velocity t :
  (0 < TRACE_N_MAX t)%Z ->
  addTracePoint x y currenttime velocity t
  = (Ok tt, admitted_state x y currenttime velocity t).
Proof.
  intros Hn. destruct t as [ps odo ra ntp amin amax rp cp it id vep nmax lmax].
  simpl in Hn.
  unfold addTracePoint, admitted_state, bind, gets, modify, ret, raise,
    calcTraceLength; simpl.
  destruct (nmax <=? Z.of_nat (List.length ps))%Z eqn:Hfull; simpl.
  - apply Z.leb_le in Hfull.
    destruct ps as [| p ps]; [simpl in Hfull; lia |].
    unfold bind, gets, ret; simpl.
    destruct (Rltb _ MIN_EVALUATION_TRACE_LENGHT); simpl.
    + destruct (rev ps ++ [p]) as [| o os] eqn:Hrev; simpl.
      * destruct (rev ps); discriminate Hrev.
      * reflexivity.
    + reflexivity.
  - reflexivity.
Qed.

Lemma processNewPosition_body_ok newPos curSpeed t :
  (0 < TRACE_N_MAX t)%Z ->
  processNewPosition_body newPos curSpeed t
  = (Ok tt, processed_state newPos curSpeed t).
Proof.
  intros Hn.
  unfold processNewPosition_body, processed_state, admits, narrow_tube.
  unfold bind, gets, modify, ret, raise, addTracePointByPosition.
  cbv beta iota.
  destruct (currentPos t) as [cur |] eqn:Hcur; [| reflexivity].
  assert (Hadd : forall o,
    points (set_odometer o (admitted_state (X cur) (Y cur) NowFunction curSpeed t))
    = [] -> False) by (intros o H; discriminate H).
  destruct (points t) as [| p0 rest] eqn:Hps.
  - cbn [List.length Nat.leb]. cbv beta iota.
    rewrite (addTracePoint_ok (X cur) (Y cur) NowFunction curSpeed t Hn).
    cbv beta iota.
    finish_tube (Hadd (odometer (admitted_state (X cur) (Y cur) NowFunction curSpeed t)
                       + getDistance cur newPos)).
  - assert (Hold : forall o, points (set_odometer o t) = [] -> False)
      by (intros o H; simpl in H; rewrite Hps in H; discriminate H).
    cbn [List.length Nat.leb]. cbv beta iota.
    destruct (Rleb TRACE_MIN_DIST (odometer t)); cbn [andb]; cbv beta iota;
      [| finish_tube (Hold (odometer t + getDistance cur newPos)) ].
    destruct (Rleb TRACE_MAX_DIST _); cbn [orb]; cbv beta iota.
    { rewrite (addTracePoint_ok (X cur) (Y cur) NowFunction curSpeed t Hn).
      cbv beta iota.
      finish_tube (Hadd (odometer (admitted_state (X cur) (Y cur) NowFunction curSpeed t)
                         + getDistance cur newPos)). }
    destruct (Rltb TRACE_MAX_HEDINGDELTA _); cbn [orb]; cbv beta iota.
    { rewrite (addTracePoint_ok (X cur) (Y cur) NowFunction curSpeed t Hn).
      cbv beta iota.
      finish_tube (Hadd (odometer (admitted_state (X cur) (Y cur) NowFunction curSpeed t)
                         + getDistance cur newPos)). }
    destruct (Rltb _ (alphamin t) || Rltb (alphamax t) _)%bool; cbv beta iota.
    { rewrite (addTracePoint_ok (X cur) (Y cur) NowFunction curSpeed t Hn).
      cbv beta iota.
      finish_tube (Hadd (odometer (admitted_state (X cur) (Y cur) NowFunction curSpeed t)
                         + getDistance cur newPos)). }
    finish_tube (Hold (odometer t + getDistance cur newPos)).
Qed.

Lemma processNewPosition_ok newPos curSpeed t :
  (0 < TRACE_N_MAX t)%Z ->
  processNewPosition newPos curSpeed t
  = (Value tt, processed_state newPos curSpeed t).
Proof.
  intros Hn. unfold processNewPosition, try_except.
  rewrite processNewPosition_body_ok by exact Hn. reflexivity.
Qed.

Lemma narrow_tube_points newPos t : points (narrow_tube newPos t) = points t.
Proof.
  unfold narrow_tube. destruct (points t) as [| p0 rest] eqn:H; [exact H |].
  destruct (_ && _)%bool; simpl; exact H.
Qed.

Lemma narrow_tube_TRACE_N_MAX newPos t :
  TRACE_N_MAX (narrow_tube newPos t) = TRACE_N_MAX t.
Proof.
  unfold narrow_tube. destruct (points t) as [| p0 rest]; [reflexivity |].
  destruct (_ && _)%bool; reflexivity.
Qed.

Lemma narrow_tube_currentPos newPos t :
  currentPos (narrow_tube newPos t) = currentPos t.
Proof.
  unfold narrow_tube. destruct (points t) as [| p0 rest]; [reflexivity |].
  destruct (_ && _)%bool; reflexivity.
Qed.

(** The point list after a call: unchanged, or the current position pushed
    in front, the oldest point dropped when the list was full. *)
Lemma processed_state_points newPos curSpeed t :
  points (processed_state newPos curSpeed t)
  = match currentPos t with
    | Some cur =>
        if admits newPos t then
          mkTracePoint (mkVector (X cur) (Y cur)) NowFunction curSpeed (vehID t)
            :: (if (TRACE_N_MAX t <=? Z.of_nat (List.length (points t)))%Z
                then removelast (points t) else points t)
        else points t
    | None => points t
    end.
Proof.
  unfold processed_state. destruct (currentPos t) as [cur |]; [| reflexivity].
  simpl. rewrite narrow_tube_points. destruct (admits newPos t); reflexivity.
Qed.

Lemma processed_state_TRACE_N_MAX newPos curSpeed t :
  TRACE_N_MAX (processed_state newPos curSpeed t) = TRACE_N_MAX t.
Proof.
  unfold processed_state. destruct (currentPos t) as [cur |]; [| reflexivity].
  simpl. rewrite narrow_tube_TRACE_N_MAX. destruct (admits newPos t); reflexivity.
Qed.

Lemma processed_state_currentPos newPos curSpeed t :
  currentPos (processed_state newPos curSpeed t) = Some newPos.
Proof.
  unfold processed_state. destruct (currentPos t) as [cur |]; reflexivity.
Qed.

Lemma length_removelast {A} (l : list A) :
  List.length (removelast l) = pred (List.length l).
Proof.
  rewrite removelast_firstn_len, length_firstn. lia.
Qed.

(** C4: a call of [processNewPosition] on a trace object (whose
    [TRACE_N_MAX] is positive, as the class constant and every accepted
    override are) returns normally, lets the number of points grow by at
    most one, and leaves [currentPos] equal to the new position. *)
Theorem processNewPosition_at_most_one_point :
  forall (newPos : Vector) (curSpeed : R) (t : Trace),
    (0 < TRACE_N_MAX t)%Z ->
    let r := processNewPosition newPos curSpeed t in
    fst r = Value tt
    /\ (List.length (points (snd r)) <= List.length (points t) + 1)%nat
    /\ currentPos (snd r) = Some newPos.
Proof.
  intros newPos curSpeed t Hn r. unfold r.
  rewrite processNewPosition_ok by exact Hn. simpl fst; simpl snd.
  split; [reflexivity |]. split; [| apply processed_state_currentPos].
  rewrite processed_state_points.
  destruct (currentPos t) as [cur |]; [| lia].
  destruct (admits newPos t); [| lia].
  destruct (TRACE_N_MAX t <=? _)%Z; simpl; [rewrite length_removelast |]; lia.
Qed.

(** ** Sequences of calls *)

Lemma removelast_live_prefix (ps : list TracePoint) (log : list (nat * TracePoint)) :
  ps = map snd (firstn (List.length ps) log) ->
  removelast ps = map snd (firstn (List.length (removelast ps)) log).
Proof.
  intros H. rewrite length_removelast.
  transitivity (firstn (pred (List.length ps))
                  (map snd (firstn (List.length ps) log))).
  { rewrite <- H. apply removelast_firstn_len. }
  rewrite firstn_map, firstn_firstn.
  replace (Nat.min (pred (List.length ps)) (List.length ps))
    with (pred (List.length ps)) by lia.
  reflexivity.
Qed.

Lemma trace_inv_step tick newPos curSpeed t log :
  trace_inv tick t log ->
  trace_inv (S tick) (snd (processNewPosition newPos curSpeed t))
    (match currentPos t with
     | Some cur =>
         if admits newPos t
         then (tick, mkTracePoint (mkVector (X cur) (Y cur)) NowFunction
                       curSpeed (vehID t)) :: log
         else log
     | None => log
     end).
Proof.
  intros (Hn & Hlen & Hpre & Hsort & Hticks).
  rewrite processNewPosition_ok by exact Hn. simpl snd.
  assert (Hticks' : Forall (fun e => (fst e < S tick)%nat) log).
  { eapply Forall_impl; [| exact Hticks]. simpl; intros; lia. }
  unfold trace_inv, live_prefix.
  rewrite processed_state_TRACE_N_MAX, processed_state_points.
  destruct (currentPos t) as [cur |]; [| repeat split; assumption].
  destruct (admits newPos t); [| repeat split; assumption].
  split; [exact Hn |].
  destruct (TRACE_N_MAX t <=? Z.of_nat (List.length (points t)))%Z eqn:Hfull.
  - apply Z.leb_le in Hfull.
    split; [simpl List.length; rewrite length_removelast; lia |].
    split.
    + simpl. f_equal. apply removelast_live_prefix. exact Hpre.
    + split; [constructor; assumption |].
      constructor; [simpl; lia | exact Hticks'].
  - apply Z.leb_gt in Hfull.
    split; [simpl List.length; lia |].
    split.
    + simpl. f_equal. exact Hpre.
    + split; [constructor; assumption |].
      constructor; [simpl; lia | exact Hticks'].
Qed.

Lemma trace_inv_run calls :
  forall tick t log,
    trace_inv tick t log ->
    trace_inv (tick + List.length calls) (run calls t)
      (admission_log tick calls t log).
Proof.
  induction calls as [| [newPos curSpeed] rest IH]; intros tick t log Hinv; simpl.
  - rewrite Nat.add_0_r. exact Hinv.
  - replace (tick + S (List.length rest))%nat
      with (S tick + List.length rest)%nat by lia.
    apply IH. apply trace_inv_step. exact Hinv.
Qed.

Lemma run_TRACE_N_MAX calls :
  forall t, (0 < TRACE_N_MAX t)%Z -> TRACE_N_MAX (run calls t) = TRACE_N_MAX t.
Proof.
  induction calls as [| [newPos curSpeed] rest IH]; intros t Hn; simpl.
  - reflexivity.
  - rewrite processNewPosition_ok by exact Hn. simpl snd.
    rewrite IH; rewrite processed_state_TRACE_N_MAX; [reflexivity | exact Hn].
Qed.

Lemma Trace_init_ok cls_vep initialPosition initialTime_ initialV initialVehId :
  Trace_init cls_vep initialPosition initialTime_ initialV initialVehId
  = (Ok tt,
     mkTrace [mkTracePoint (mkVector (X initialPosition) (Y initialPosition))
                (TimeValue initialTime_) initialV initialVehId]
       0 None 1 0 (2 * PI) initialPosition None initialTime_ initialVehId
       cls_vep TRACE_N_MAX_default TRACE_LENGTH_MAX_default).
Proof.
  unfold Trace_init. rewrite addTracePoint_ok by (simpl; reflexivity).
  reflexivity.
Qed.

(** C1: after construction and any sequence of [processNewPosition] calls
    the trace holds between 0 and [TRACE_N_MAX] (16) points, and its point
    list is the newest part of the admission log, in the order of the log,
    whose admission ticks strictly decrease from index 0 on: the points are
    strictly ordered by admission time, newest first. *)
Theorem processNewPosition_bounded_newest_first :
  forall (cls_vep : list TracePoint) (initialPosition : Vector)
         (initialTime_ initialV : R) (initialVehId : Z)
         (calls : list (Vector * R)),
    let t0 := snd (Trace_init cls_vep initialPosition initialTime_ initialV initialVehId) in
    let first := mkTracePoint (mkVector (X initialPosition) (Y initialPosition))
                   (TimeValue initialTime_) initialV initialVehId in
    let t := run calls t0 in
    let log := admission_log 1 calls t0 [(0%nat, first)] in
    TRACE_N_MAX t = 16%Z
    /\ (0 <= List.length (points t) <= 16)%nat
    /\ newest_first log
    /\ points t = map snd (firstn (List.length (points t)) log).
Proof.
  intros cls_vep initialPosition initialTime_ initialV initialVehId calls.
  rewrite Trace_init_ok. simpl snd. intros t0 first t log.
  assert (Hinv0 : trace_inv 1 t0 [(0%nat, first)]).
  { unfold trace_inv, live_prefix, newest_first, t0, first; simpl.
    repeat split; try (unfold TRACE_N_MAX_default; lia).
    - constructor; [constructor | constructor].
    - constructor; [simpl; lia | constructor]. }
  pose proof (trace_inv_run calls 1 t0 _ Hinv0) as (Hn & Hlen & Hpre & Hsort & _).
  fold t in Hn, Hlen, Hpre. fold log in Hpre, Hsort.
  assert (HN : TRACE_N_MAX t = 16%Z).
  { unfold t. rewrite run_TRACE_N_MAX; [reflexivity |].
    unfold t0; simpl; unfold TRACE_N_MAX_default; lia. }
  rewrite HN in Hlen.
  repeat split; try assumption; lia.
Qed.

(** ** Geometry on the axes *)

Lemma sqrt_sq_abs (d : R) : sqrt (d * d) = Rabs d.
Proof. apply sqrt_Rsqr_abs. Qed.

Lemma getDistance_same_X (a b : Vector) :
  X a = X b -> getDistance a b = Rabs (Y b - Y a).
Proof.
  intros H. unfold getDistance. rewrite H.
  replace ((X b - X b) * (X b - X b) + (Y b - Y a) * (Y b - Y a))
    with ((Y b - Y a) * (Y b - Y a)) by ring.
  apply sqrt_sq_abs.
Qed.

Lemma getDistance_same_Y (a b : Vector) :
  Y a = Y b -> getDistance a b = Rabs (X b - X a).
Proof.
  intros H. unfold getDistance. rewrite H.
  replace ((X b - X a) * (X b - X a) + (Y b - Y b) * (Y b - Y b))
    with ((X b - X a) * (X b - X a)) by ring.
  apply sqrt_sq_abs.
Qed.

Lemma getAngle_yVector (x y : R) :
  getAngle (mkVector 0 1) (mkVector x y)
  = if Reqb (sqrt (x * x + y * y)) 0 then 0 else acos (y / sqrt (x * x + y * y)).
Proof.
  unfold getAngle; simpl.
  replace (0 * 0 + 1 * 1) with 1 by ring. rewrite sqrt_1, Rmult_1_l.
  replace (0 * x + 1 * y) with y by ring. reflexivity.
Qed.

(** Due north (towards +Y) is direction [0]. *)
Lemma getDirection_north (a b : Vector) :
  X a = X b -> Y a < Y b -> getDirection a b = 0.
Proof.
  intros HX HY. unfold getDirection. rewrite getAngle_yVector.
  replace (X b - X a) with 0 by lra.
  replace (0 * 0 + (Y b - Y a) * (Y b - Y a))
    with ((Y b - Y a) * (Y b - Y a)) by ring.
  rewrite sqrt_sq_abs, Rabs_pos_eq by lra.
  replace (Reqb (Y b - Y a) 0) with false
    by (symmetry; apply Reqb_false; lra).
  replace (Rltb 0 0) with false by (symmetry; apply Rltb_false; lra).
  replace ((Y b - Y a) / (Y b - Y a)) with 1 by (field; lra).
  apply acos_1.
Qed.

(** Due west (towards -X) is direction [PI / 2]. *)
Lemma getDirection_west (a b : Vector) :
  Y a = Y b -> X b < X a -> getDirection a b = PI / 2.
Proof.
  intros HY HX. unfold getDirection. rewrite getAngle_yVector.
  replace (Y b - Y a) with 0 by lra.
  replace ((X b - X a) * (X b - X a) + 0 * 0)
    with ((X b - X a) * (X b - X a)) by ring.
  rewrite sqrt_sq_abs, Rabs_left by lra.
  replace (Reqb (- (X b - X a)) 0) with false
    by (symmetry; apply Reqb_false; lra).
  replace (Rltb 0 (X b - X a)) with false by (symmetry; apply Rltb_false; lra).
  replace (0 / - (X b - X a)) with 0 by (field; lra).
  apply acos_0.
Qed.

(** Due east (towards +X) is direction [3 * PI / 2]. *)
Lemma getDirection_east (a b : Vector) :
  Y a = Y b -> X a < X b -> getDirection a b = 3 * (PI / 2).
Proof.
  intros HY HX. unfold getDirection. rewrite getAngle_yVector.
  replace (Y b - Y a) with 0 by lra.
  replace ((X b - X a) * (X b - X a) + 0 * 0)
    with ((X b - X a) * (X b - X a)) by ring.
  rewrite sqrt_sq_abs, Rabs_pos_eq by lra.
  replace (Reqb (X b - X a) 0) with false
    by (symmetry; apply Reqb_false; lra).
  replace (Rltb 0 (X b - X a)) with true by (symmetry; apply Rltb_true; lra).
  replace (0 / (X b - X a)) with 0 by (field; lra).
  rewrite acos_0. lra.
Qed.

Lemma asin_pos (x : R) : 0 < x < 1 -> 0 < asin x < PI / 2.
Proof.
  intros Hx. split; [| apply asin_bound_lt; lra].
  rewrite asin_atan by lra. rewrite <- atan_0.
  apply atan_increasing.
  apply Rdiv_lt_0_compat; [lra |].
  apply sqrt_lt_R0. unfold Rsqr. nra.
Qed.

Lemma asin_TRACE_MAX_OFFSET (dist_ : R) :
  MATCH_MAX_OFFSET < dist_ -> 0 < asin (TRACE_MAX_OFFSET / dist_) < PI / 2.
Proof.
  unfold MATCH_MAX_OFFSET, TRACE_MAX_OFFSET. intros H. apply asin_pos.
  split.
  - apply Rdiv_lt_0_compat; lra.
  - apply Rmult_lt_reg_r with (r := dist_); [lra |].
    unfold Rdiv. rewrite Rmult_assoc, Rinv_l by lra. lra.
Qed.

(** ** The angular tube *)

Lemma narrow_tube_spec newPos t p0 rest :
  points t = p0 :: rest ->
  let dist_ := getDistance (tp_position p0) newPos in
  let dir := getDirection (tp_position p0) newPos in
  let beta := asin (TRACE_MAX_OFFSET / dist_) in
  let t' := narrow_tube newPos t in
  (MATCH_MAX_OFFSET < dist_ -> alphamin t <= dir - beta <= alphamax t ->
   alphamin t' = Rmax (alphamin t) (dir - beta)
   /\ alphamax t' = Rmin (alphamax t) (dir + beta))
  /\ (MATCH_MAX_OFFSET < dist_ -> alphamax t < dir - beta ->
      alphamin t' = alphamin t /\ alphamax t' = alphamax t)
  /\ (dist_ <= MATCH_MAX_OFFSET ->
      alphamin t' = alphamin t /\ alphamax t' = alphamax t)
  /\ alphamin t <= alphamin t' /\ alphamax t' <= alphamax t.
Proof.
  intros Hps dist_ dir beta t'. unfold t', narrow_tube. rewrite Hps.
  fold dist_ dir beta.
  destruct (Rltb MATCH_MAX_OFFSET dist_) eqn:Hd; cbn [andb].
  2:{ apply Rltb_false in Hd. repeat split; intros; try lra. }
  apply Rltb_true in Hd.
  pose proof (asin_TRACE_MAX_OFFSET dist_ Hd) as Hbeta. fold beta in Hbeta.
  destruct (Rleb (alphamin t) (dir - beta)) eqn:G1;
    destruct (Rleb (dir - beta) (alphamax t)) eqn:G2;
    destruct (Rleb (dir + beta) (alphamax t)) eqn:G3;
    destruct (Rleb (dir + beta) (alphamin t)) eqn:G4;
    cbn [andb orb];
    try apply Rleb_true in G1; try apply Rleb_false in G1;
    try apply Rleb_true in G2; try apply Rleb_false in G2;
    try apply Rleb_true in G3; try apply Rleb_false in G3;
    try apply Rleb_true in G4; try apply Rleb_false in G4;
    try (destruct (Rltb (alphamin t) (dir - beta)) eqn:L1;
         [apply Rltb_true in L1 | apply Rltb_false in L1]);
    try (destruct (Rltb (dir + beta) (alphamax t)) eqn:L2;
         [apply Rltb_true in L2 | apply Rltb_false in L2]);
    simpl; unfold Rmax, Rmin;
    repeat split; intros;
    repeat match goal with
           | |- context [Rle_dec ?a ?b] => destruct (Rle_dec a b)
           end;
    lra.
Qed.

(** C3, amended: the tube is recomputed from the newest point [p0] (after
    the admission this call may have made, which resets the tube to
    [[0, 2 PI]]).  When the distance from [p0] to the new position exceeds
    [MATCH_MAX_OFFSET] and [dir - beta] lies inside the tube, the bounds
    become [max(alphamin, dir - beta)] and [min(alphamax, dir + beta)]; when
    [dir - beta] lies above the tube, or the distance does not exceed
    [MATCH_MAX_OFFSET], the tube is left as it is; in every case the tube
    does not widen.  [__addTracePoint] itself sets the tube to [[0, 2 PI]]. *)
Theorem processNewPosition_tube :
  forall (newPos : Vector) (curSpeed : R) (t : Trace) (cur : Vector),
    (0 < TRACE_N_MAX t)%Z ->
    currentPos t = Some cur ->
    let t' := snd (processNewPosition newPos curSpeed t) in
    let amin := if admits newPos t then 0 else alphamin t in
    let amax := if admits newPos t then 2 * PI else alphamax t in
    (exists p0 rest,
       points t' = p0 :: rest /\
       let dist_ := getDistance (tp_position p0) newPos in
       let dir := getDirection (tp_position p0) newPos in
       let beta := asin (TRACE_MAX_OFFSET / dist_) in
       (MATCH_MAX_OFFSET < dist_ -> amin <= dir - beta <= amax ->
        alphamin t' = Rmax amin (dir - beta)
        /\ alphamax t' = Rmin amax (dir + beta))
       /\ (MATCH_MAX_OFFSET < dist_ -> amax < dir - beta ->
           alphamin t' = amin /\ alphamax t' = amax)
       /\ (dist_ <= MATCH_MAX_OFFSET ->
           alphamin t' = amin /\ alphamax t' = amax)
       /\ amin <= alphamin t' /\ alphamax t' <= amax)
    /\ (forall x y currenttime velocity,
          let ta := snd (addTracePoint x y currenttime velocity t) in
          alphamin ta = 0 /\ alphamax ta = 2 * PI).
Proof.
  intros newPos curSpeed t cur Hn Hcur t' amin amax.
  split.
  2:{ intros x y currenttime velocity. rewrite addTracePoint_ok by exact Hn.
      simpl. split; reflexivity. }
  unfold t'. rewrite processNewPosition_ok by exact Hn. simpl snd.
  unfold processed_state. rewrite Hcur.
  set (t1 := if admits newPos t
             then admitted_state (X cur) (Y cur) NowFunction curSpeed t else t).
  set (t2 := set_odometer (odometer t1 + getDistance cur newPos) t1).
  assert (Hps : exists p0 rest, points t2 = p0 :: rest).
  { unfold t2, t1. destruct (admits newPos t) eqn:Ha; simpl.
    - eauto.
    - unfold admits in Ha. rewrite Hcur in Ha.
      destruct (points t) as [| p0 rest]; [discriminate Ha | eauto]. }
  assert (Hmin : alphamin t2 = amin).
  { unfold t2, t1, amin. destruct (admits newPos t); reflexivity. }
  assert (Hmax : alphamax t2 = amax).
  { unfold t2, t1, amax. destruct (admits newPos t); reflexivity. }
  destruct Hps as (p0 & rest & Hps).
  exists p0, rest. split; [simpl; rewrite narrow_tube_points; exact Hps |].
  pose proof (narrow_tube_spec newPos t2 p0 rest Hps) as H.
  rewrite Hmin, Hmax in H. exact H.
Qed.

Lemma admits_short_odometer newPos t :
  odometer t < TRACE_MIN_DIST -> points t <> [] -> admits newPos t = false.
Proof.
  intros Ho Hps. unfold admits.
  destruct (currentPos t) as [cur |]; [| reflexivity].
  destruct (points t) as [| p0 rest]; [congruence |].
  replace (Rleb TRACE_MIN_DIST (odometer t)) with false
    by (symmetry; apply Rleb_false; exact Ho).
  reflexivity.
Qed.

Lemma processed_state_no_admission newPos curSpeed t cur :
  currentPos t = Some cur ->
  admits newPos t = false ->
  processed_state newPos curSpeed t
  = set_currentPos (Some newPos)
      (narrow_tube newPos (set_odometer (odometer t + getDistance cur newPos) t)).
Proof.
  intros Hcur Ha. unfold processed_state. rewrite Hcur, Ha. reflexivity.
Qed.

Lemma narrow_tube_inside newPos t p0 rest :
  points t = p0 :: rest ->
  let dist_ := getDistance (tp_position p0) newPos in
  let dir := getDirection (tp_position p0) newPos in
  let beta := asin (TRACE_MAX_OFFSET / dist_) in
  MATCH_MAX_OFFSET < dist_ ->
  alphamin t < dir - beta -> dir - beta <= alphamax t -> dir + beta < alphamax t ->
  narrow_tube newPos t = set_alphamax (dir + beta) (set_alphamin (dir - beta) t).
Proof.
  intros Hps dist_ dir beta Hd H1 H2 H3. unfold narrow_tube. rewrite Hps.
  fold dist_ dir beta.
  rewrite (proj2 (Rltb_true _ _) Hd).
  rewrite (proj2 (Rleb_true (alphamin t) _)) by lra.
  rewrite (proj2 (Rleb_true _ (alphamax t)) H2).
  rewrite (proj2 (Rltb_true _ _) H1), (proj2 (Rltb_true _ _) H3).
  reflexivity.
Qed.

Lemma narrow_tube_above newPos t p0 rest :
  points t = p0 :: rest ->
  let dist_ := getDistance (tp_position p0) newPos in
  let dir := getDirection (tp_position p0) newPos in
  let beta := asin (TRACE_MAX_OFFSET / dist_) in
  MATCH_MAX_OFFSET < dist_ ->
  alphamax t < dir - beta ->
  narrow_tube newPos t = t.
Proof.
  intros Hps dist_ dir beta Hd H1.
  pose proof (asin_TRACE_MAX_OFFSET dist_ Hd) as Hb. fold beta in Hb.
  unfold narrow_tube. rewrite Hps. fold dist_ dir beta.
  rewrite (proj2 (Rleb_false (dir - beta) (alphamax t)) H1).
  rewrite (proj2 (Rleb_false (dir + beta) (alphamax t))) by lra.
  rewrite andb_false_r. cbn [andb orb]. rewrite andb_false_r. reflexivity.
Qed.

Lemma tube_example_eq :
  tube_example
  = mkTrace [mkTracePoint (mkVector 0 0) (TimeValue 0) 10 1] 1 None 1
      (PI / 2 - asin (TRACE_MAX_OFFSET / 30)) (PI / 2 + asin (TRACE_MAX_OFFSET / 30))
      (mkVector 0 0) (Some (mkVector (-30) 0)) 0 1 [] 16 2500.
Proof.
  unfold tube_example. rewrite Trace_init_ok. simpl snd. simpl run.
  rewrite processNewPosition_ok by (simpl; unfold TRACE_N_MAX_default; lia).
  simpl snd.
  rewrite processed_state_no_admission with (cur := mkVector (-30) 1);
    [| reflexivity
     | apply admits_short_odometer; simpl; [unfold TRACE_MIN_DIST; lra | discriminate]].
  assert (Hdist : getDistance (mkVector 0 0) (mkVector (-30) 0) = 30).
  { rewrite getDistance_same_Y by reflexivity. simpl.
    rewrite Rabs_left by lra. lra. }
  assert (Hdir : getDirection (mkVector 0 0) (mkVector (-30) 0) = PI / 2).
  { apply getDirection_west; simpl; lra. }
  assert (Hedge : getDistance (mkVector (-30) 1) (mkVector (-30) 0) = 1).
  { rewrite getDistance_same_X by reflexivity. simpl.
    rewrite Rabs_left by lra. lra. }
  pose proof PI_RGT_0 as Hpi.
  assert (Hbeta : 0 < asin (TRACE_MAX_OFFSET / 30) < PI / 2).
  { apply asin_TRACE_MAX_OFFSET. unfold MATCH_MAX_OFFSET; lra. }
  erewrite narrow_tube_inside; [| simpl; reflexivity | | | |]; simpl;
    rewrite ?Hdist, ?Hdir, ?Hedge; try (unfold MATCH_MAX_OFFSET; lra).
  unfold set_currentPos, set_alphamax, set_alphamin, set_odometer; simpl.
  unfold TRACE_N_MAX_default, TRACE_LENGTH_MAX_default.
  f_equal. lra.
Qed.

(** C3, as stated, fails: on [tube_example] the newest point is 30 m away
    from the new position, more than [MATCH_MAX_OFFSET], yet [alphamin] is
    not replaced by [max(alphamin, dir - beta)]: [dir - beta] lies above the
    tube and the guard of the re-computation leaves the tube untouched. *)
Lemma tube_not_narrowed_unconditionally :
  let t := tube_example in
  let newPos := mkVector 30 0 in
  let t' := snd (processNewPosition newPos 10 t) in
  exists p0 rest,
    points t = p0 :: rest /\ points t' = p0 :: rest /\
    let dist_ := getDistance (tp_position p0) newPos in
    let dir := getDirection (tp_position p0) newPos in
    let beta := asin (TRACE_MAX_OFFSET / dist_) in
    MATCH_MAX_OFFSET < dist_
    /\ alphamin t' <> Rmax (alphamin t) (dir - beta).
Proof.
  intros t newPos t'. unfold t', t. rewrite tube_example_eq.
  rewrite processNewPosition_ok by (simpl; lia). simpl snd.
  assert (Hdist : getDistance (mkVector 0 0) newPos = 30).
  { unfold newPos. rewrite getDistance_same_Y by reflexivity. simpl.
    rewrite Rabs_pos_eq by lra. lra. }
  assert (Hdir : getDirection (mkVector 0 0) newPos = 3 * (PI / 2)).
  { apply getDirection_east; simpl; lra. }
  pose proof PI_RGT_0 as Hpi.
  assert (Hbeta : 0 < asin (TRACE_MAX_OFFSET / 30) < PI / 2).
  { apply asin_TRACE_MAX_OFFSET. unfold MATCH_MAX_OFFSET; lra. }
  rewrite processed_state_no_admission with (cur := mkVector (-30) 0);
    [| reflexivity
     | apply admits_short_odometer; simpl; [unfold TRACE_MIN_DIST; lra | discriminate]].
  erewrite narrow_tube_above; [| simpl; reflexivity | |]; simpl;
    rewrite ?Hdist, ?Hdir; try (unfold MATCH_MAX_OFFSET; lra).
  do 2 eexists. split; [reflexivity |]. split; [reflexivity |].
  simpl. rewrite Hdist, Hdir.
  split; [unfold MATCH_MAX_OFFSET; lra |].
  unfold Rmax. destruct (Rle_dec _ _); lra.
Qed.

Lemma processNewPosition_tube_witness :
  let newPos := mkVector 0 30 in
  let t := fresh_trace in
  let t' := snd (processNewPosition newPos 10 t) in
  let amin := if admits newPos t then 0 else alphamin t in
  let amax := if admits newPos t then 2 * PI else alphamax t in
  (exists p0 rest,
     points t' = p0 :: rest /\
     let dist_ := getDistance (tp_position p0) newPos in
     let dir := getDirection (tp_position p0) newPos in
     let beta := asin (TRACE_MAX_OFFSET / dist_) in
     (MATCH_MAX_OFFSET < dist_ -> amin <= dir - beta <= amax ->
      alphamin t' = Rmax amin (dir - beta)
      /\ alphamax t' = Rmin amax (dir + beta))
     /\ (MATCH_MAX_OFFSET < dist_ -> amax < dir - beta ->
         alphamin t' = amin /\ alphamax t' = amax)
     /\ (dist_ <= MATCH_MAX_OFFSET ->
         alphamin t' = amin /\ alphamax t' = amax)
     /\ amin <= alphamin t' /\ alphamax t' <= amax)
  /\ (forall x y currenttime velocity,
        let ta := snd (addTracePoint x y currenttime velocity t) in
        alphamin ta = 0 /\ alphamax ta = 2 * PI).
Proof.
  apply (processNewPosition_tube (mkVector 0 30) 10 fresh_trace (mkVector 0 0)).
  - simpl. lia.
  - reflexivity.
Defined.

Lemma processNewPosition_at_most_one_point_witness :
  let r := processNewPosition (mkVector 0 30) 10 fresh_trace in
  fst r = Value tt
  /\ (List.length (points (snd r)) <= List.length (points fresh_trace) + 1)%nat
  /\ currentPos (snd r) = Some (mkVector 0 30).
Proof.
  apply (processNewPosition_at_most_one_point (mkVector 0 30) 10 fresh_trace).
  simpl. lia.
Defined.

Lemma matchToPosition_few_points_witness :
  fst (matchToPosition (mkVector 0 20) 0 (fun _ _ => true) None fresh_trace)
  = Value (mkTraceMatch 0 9999 STATUS_NO_MATCH_UNDEFINED).
Proof.
  apply (matchToPosition_few_points (mkVector 0 20) 0 (fun _ _ => true) None
           fresh_trace).
  simpl. lia.
Defined.

(** ** A trace with a turn: matching with a previous match *)

Lemma turn_trace_eq :
  turn_trace
  = mkTrace [turn_P0; turn_P1; turn_P2] 0 None 3 0 (2 * PI)
      (mkVector 0 40) None 0 1 [] 16 2500.
Proof. reflexivity. Qed.

Lemma turn_edge1_distance :
  calcEdgeDistance (tp_position turn_P0) (tp_position turn_P1) (mkVector 0 20) = Ok 0.
Proof.
  unfold calcEdgeDistance; simpl.
  replace (Reqb 0 0) with true by (symmetry; apply Reqb_true; reflexivity).
  replace (Reqb 15 30) with false by (symmetry; apply Reqb_false; lra).
  simpl. f_equal. rewrite Rminus_diag. apply Rabs_R0.
Qed.

Lemma turn_edge2_distance :
  calcEdgeDistance (tp_position turn_P1) (tp_position turn_P2) (mkVector 0 20) = Ok 5.
Proof.
  unfold calcEdgeDistance; simpl.
  replace (Reqb 100 0) with false by (symmetry; apply Reqb_false; lra).
  simpl. f_equal.
  replace ((15 - 15) / (100 - 0)) with 0 by (field; lra).
  replace (0 * 0 + 1 * 1) with 1 by ring. rewrite sqrt_1.
  replace ((- 0 * 0 + 1 * 20 + - (15 - 0 * 0)) / 1) with 5 by field.
  apply Rabs_pos_eq. lra.
Qed.

Lemma turn_edge1_direction :
  getDirection (tp_position turn_P1) (tp_position turn_P0) = 0.
Proof. apply getDirection_north; simpl; lra. Qed.

Lemma turn_edge2_direction :
  getDirection (tp_position turn_P2) (tp_position turn_P1) = PI / 2.
Proof. apply getDirection_west; simpl; lra. Qed.

Lemma turn_combined_quality :
  calcCombinedMatchQuality 0 0 (1 / 2) 5 = 5 / 8.
Proof.
  unfold calcCombinedMatchQuality, calcMatchQuality, MATCH_DIST_SMOOTH,
    MATCH_MAX_OFFSET.
  replace (Rmax 0 (1 - 5 / 20)) with (3 / 4)
    by (unfold Rmax; destruct (Rle_dec 0 (1 - 5 / 20)); lra).
  replace (0 / MATCH_MAX_HEADINGDELTA) with 0 by (unfold Rdiv; ring).
  lra.
Qed.

Lemma turn_step1 :
  matchToPosition_step (mkVector 0 20) 0 (Some (mkTraceMatch (1 / 2) 5 STATUS_MATCH))
    turn_P0 turn_P1 (mkMatchLoop (Some turn_P0) 0 9999 0 None 0 None None)
  = Ok (mkMatchLoop (Some turn_P1) (5 / 8) 0 0 (Some (mkVector 0 30)) 15
          (Some 5) (Some (1 / 2))).
Proof.
  unfold matchToPosition_step.
  rewrite turn_edge1_distance. cbn [obind].
  rewrite turn_edge1_direction.
  cbn [bmquality bmoffset bmrawdist bmtp rawdist matchQuality matchDistance].
  rewrite Rminus_diag, Rabs_R0, turn_combined_quality.
  replace (Rleb 0 MATCH_MAX_OFFSET) with true
    by (symmetry; apply Rleb_true; unfold MATCH_MAX_OFFSET; lra).
  replace (Rleb 0 MATCH_MAX_HEADINGDELTA) with true
    by (symmetry; apply Rleb_true; pose proof MATCH_MAX_HEADINGDELTA_pos; lra).
  replace (Rltb (0 + QUALITY_DELTA) (5 / 8)) with true
    by (symmetry; apply Rltb_true; unfold QUALITY_DELTA; lra).
  cbn [andb]. f_equal. f_equal.
  rewrite getDistance_same_X by reflexivity. simpl.
  rewrite Rabs_left by lra. lra.
Qed.

Lemma turn_step2 :
  matchToPosition_step (mkVector 0 20) 0 (Some (mkTraceMatch (1 / 2) 5 STATUS_MATCH))
    turn_P1 turn_P2
    (mkMatchLoop (Some turn_P1) (5 / 8) 0 0 (Some (mkVector 0 30)) 15
       (Some 5) (Some (1 / 2)))
  = Ok (mkMatchLoop (Some turn_P2) (5 / 8) 0 0 (Some (mkVector 0 30)) 115
          (Some 9999) (Some 0)).
Proof.
  unfold matchToPosition_step.
  rewrite turn_edge2_distance. cbn [obind].
  rewrite turn_edge2_direction.
  cbn [bmquality bmoffset bmrawdist bmtp rawdist matchQuality matchDistance].
  pose proof PI_RGT_0 as Hpi.
  replace (Rleb (Rabs (0 - PI / 2)) MATCH_MAX_HEADINGDELTA) with false.
  2:{ symmetry. apply Rleb_false. unfold MATCH_MAX_HEADINGDELTA, radians.
      rewrite Rabs_left by lra. lra. }
  rewrite andb_false_r. f_equal. f_equal.
  rewrite getDistance_same_Y by reflexivity. simpl.
  rewrite Rabs_pos_eq by lra. lra.
Qed.

(** C2, at a failing input: the sweep resets [oldMatchDistance] to [9999]
    on every edge, so when the last edge of the trace is rejected the
    previous match distance (here 5) is forgotten and the returned distance
    is 10, not [min(5, 10)]. *)
Theorem matchToPosition_forgets_prior_distance :
  let position := mkVector 0 20 in
  let prior := mkTraceMatch (1 / 2) 5 STATUS_MATCH in
  let area := Circle_contains (mkVector 0 20) 100 in
  let anchor := mkVector 0 30 in
  let raw_dist := 0 in
  exists m,
    fst (matchToPosition position 0 area (Some prior) turn_trace) = Value m
    /\ matchStatus m = STATUS_MATCH
    /\ matchDistance m = 10
    /\ matchQuality m = 5 / 8
    /\ Rmin (matchDistance prior) (getDistance position anchor + raw_dist) = 5
    /\ matchDistance m
       <> Rmin (matchDistance prior) (getDistance position anchor + raw_dist).
Proof.
  intros position prior area anchor raw_dist.
  assert (Hd : getDistance position anchor = 10).
  { unfold position, anchor. rewrite getDistance_same_X by reflexivity. simpl.
    rewrite Rabs_pos_eq by lra. lra. }
  assert (Hmin : Rmin (matchDistance prior) (getDistance position anchor + raw_dist) = 5).
  { rewrite Hd. unfold raw_dist, prior; simpl. unfold Rmin.
    destruct (Rle_dec 5 (10 + 0)); lra. }
  exists (mkTraceMatch (5 / 8) 10 STATUS_MATCH).
  split; [| repeat split; try assumption; rewrite Hmin; simpl; lra].
  rewrite turn_trace_eq.
  unfold matchToPosition, try_except, matchToPosition_body.
  unfold bind at 1. unfold gets at 1. cbn [points List.length Nat.ltb Nat.leb].
  cbv iota.
  assert (Harea : area (X position) (Y position) = true).
  { unfold area, Circle_contains, position. simpl.
    rewrite getDistance_same_X by reflexivity. simpl.
    rewrite Rminus_diag, Rabs_R0. apply Rleb_true. lra. }
  rewrite Harea. cbn [negb].
  unfold bind at 1. unfold getReferencePosition at 1, gets at 1.
  cbn [referencePosition].
  assert (Href : getDirection position (mkVector 0 40) = 0).
  { apply getDirection_north; simpl; lra. }
  rewrite Href.
  assert (Hhead : forall t, points t = [turn_P0; turn_P1; turn_P2] ->
                            calcCurrentTraceHeading t = (Ok 0, t)).
  { intros t Ht. unfold calcCurrentTraceHeading, bind, gets. rewrite Ht.
    cbn [List.length Nat.ltb Nat.leb]. cbv iota. unfold ret.
    rewrite turn_edge1_direction. reflexivity. }
  unfold bind at 1. rewrite Hhead by reflexivity.
  pose proof PI_RGT_0 as Hpi.
  replace (Rltb (0 + PI / 2) 0) with false by (symmetry; apply Rltb_false; lra).
  unfold bind at 1. rewrite Hhead by reflexivity.
  replace (Rltb 0 (0 - PI / 2)) with false by (symmetry; apply Rltb_false; lra).
  unfold bind at 1. unfold gets at 1. cbn [points].
  unfold bind, lift.
  cbn [matchToPosition_loop MatchLoop_init rp1 bmquality bmoffset bmrawdist bmtp
       rawdist oldMatchDistance oldMatchQuality].
  fold prior. unfold position, prior.
  rewrite turn_step1. cbn [obind matchToPosition_loop rp1].
  rewrite turn_step2. cbn [obind matchToPosition_loop rp1].
  unfold matchToPosition_finish.
  cbn [bmquality bmoffset bmrawdist bmtp rawdist oldMatchDistance oldMatchQuality].
  replace (Rltb 0 9999) with true by (symmetry; apply Rltb_true; lra).
  fold position anchor. rewrite Hd.
  replace (Rltb 9999 (10 + 0)) with false by (symmetry; apply Rltb_false; lra).
  cbn. unfold setMatchStatus, setMatchQuality, setMatchDistance; simpl.
  f_equal. f_equal. lra.
Qed.

(** [TRACE_N_MAX] is positive on every trace object: the class constant is
    16 and [overwriteMaxTraceLength] only accepts positive values. *)
Lemma overwriteMaxTraceLength_positive maxNrOfPoints maxLength t :
  (0 < TRACE_N_MAX t)%Z ->
  (0 < TRACE_N_MAX (snd (overwriteMaxTraceLength maxNrOfPoints maxLength t)))%Z.
Proof.
  intros Hn. unfold overwriteMaxTraceLength.
  set (n := match maxNrOfPoints with Some n => n | None => (-1)%Z end).
  set (l := match maxLength with Some l => l | None => -1 end).
  unfold bind, modify, ret.
  destruct (0 <? n)%Z eqn:Hpos; destruct (negb (n =? 0)%Z);
    destruct (negb (Reqb l 0) && Rltb 0 l)%bool; simpl;
    try exact Hn; apply Z.ltb_lt; exact Hpos.
Qed.

(** * Further properties *)

(** ** Edge distance *)

(** X1: [__calcEdgeDistance] raises [NotEnoughTracePointsException(1)]
    exactly when the two end points of the edge coincide; otherwise it
    returns a distance, which is not negative. *)
Theorem calcEdgeDistance_raises_iff :
  forall e1 e2 p : Vector,
    (calcEdgeDistance e1 e2 p = Raise (NotEnoughTracePointsException (PyInt 1))
     <-> (X e2 = X e1 /\ Y e2 = Y e1))
    /\ ((exists o, calcEdgeDistance e1 e2 p = Ok o /\ 0 <= o)
        <-> ~ (X e2 = X e1 /\ Y e2 = Y e1)).
Proof.
  intros e1 e2 p. unfold calcEdgeDistance.
  destruct (Reqb (X e2) (X e1)) eqn:HX; cbn [negb].
  - apply Reqb_true in HX.
    destruct (Reqb (Y e2) (Y e1)) eqn:HY; cbn [negb].
    + apply Reqb_true in HY. split; split; intros H.
      * split; assumption.
      * reflexivity.
      * destruct H as [o [H _]]. discriminate H.
      * exfalso. apply H. split; assumption.
    + apply Reqb_false in HY. split; split; intros H.
      * discriminate H.
      * destruct H as [_ H]. contradiction.
      * intros [_ H']. contradiction.
      * eexists. split; [reflexivity | apply Rabs_pos].
  - apply Reqb_false in HX. split; split; intros H.
    + discriminate H.
    + destruct H as [H _]. contradiction.
    + intros [H' _]. contradiction.
    + eexists. split; [reflexivity | apply Rabs_pos].
Qed.

Lemma sum_sq_nonneg (x y : R) : 0 <= x * x + y * y.
Proof.
  pose proof (Rle_0_sqr x) as Hx. pose proof (Rle_0_sqr y) as Hy.
  unfold Rsqr in Hx, Hy. lra.
Qed.

Lemma sum_sq_pos (x y : R) : x <> 0 \/ y <> 0 -> 0 < x * x + y * y.
Proof.
  intros H. pose proof (Rle_0_sqr x) as Hx. pose proof (Rle_0_sqr y) as Hy.
  unfold Rsqr in Hx, Hy.
  destruct H as [H | H]; apply Rsqr_pos_lt in H; unfold Rsqr in H; lra.
Qed.

Lemma getDistance_nonneg (a b : Vector) : 0 <= getDistance a b.
Proof. unfold getDistance. apply sqrt_pos. Qed.

Lemma getDistance_sqr (a b : Vector) :
  getDistance a b * getDistance a b
  = (X b - X a) * (X b - X a) + (Y b - Y a) * (Y b - Y a).
Proof. unfold getDistance. apply sqrt_sqrt. apply sum_sq_nonneg. Qed.

Lemma getDistance_pos (a b : Vector) :
  ~ (X b = X a /\ Y b = Y a) -> 0 < getDistance a b.
Proof.
  intros H. unfold getDistance. apply sqrt_lt_R0. apply sum_sq_pos.
  destruct (Req_dec_T (X b) (X a)) as [HX | HX].
  - right. intros HY. apply H. split; lra.
  - left. lra.
Qed.

Lemma calcEdgeDistance_cross :
  forall e1 e2 p : Vector,
    ~ (X e2 = X e1 /\ Y e2 = Y e1) ->
    calcEdgeDistance e1 e2 p
    = Ok (Rabs ((X e2 - X e1) * (Y p - Y e1) - (Y e2 - Y e1) * (X p - X e1))
          / getDistance e1 e2).
Proof.
  intros e1 e2 p Hne.
  pose proof (getDistance_pos e1 e2 Hne) as HD.
  pose proof (getDistance_sqr e1 e2) as HDD.
  unfold calcEdgeDistance.
  destruct (Reqb (X e2) (X e1)) eqn:HX; cbn [negb].
  - apply Reqb_true in HX.
    assert (HY : Y e2 <> Y e1) by (intros HY; apply Hne; split; assumption).
    replace (Reqb (Y e2) (Y e1)) with false by (symmetry; apply Reqb_false; exact HY).
    cbn [negb]. f_equal.
    rewrite getDistance_same_X by (symmetry; exact HX).
    replace ((X e2 - X e1) * (Y p - Y e1) - (Y e2 - Y e1) * (X p - X e1))
      with (- ((Y e2 - Y e1) * (X p - X e1))) by (rewrite HX; ring).
    rewrite Rabs_Ropp, Rabs_mult. field.
    apply Rabs_no_R0. lra.
  - apply Reqb_false in HX. f_equal.
    set (xD := X e2 - X e1) in *. set (yD := Y e2 - Y e1) in *.
    assert (HxD : xD <> 0) by (unfold xD; lra).
    assert (HaxD : 0 < Rabs xD) by (apply Rabs_pos_lt; exact HxD).
    assert (Hsq : Rabs xD * Rabs xD = xD * xD).
    { rewrite <- Rabs_mult. apply Rabs_pos_eq.
      pose proof (Rle_0_sqr xD) as H0. unfold Rsqr in H0. exact H0. }
    assert (Hs : sqrt (yD / xD * (yD / xD) + 1 * 1) = getDistance e1 e2 / Rabs xD).
    { replace (yD / xD * (yD / xD) + 1 * 1)
        with ((getDistance e1 e2 / Rabs xD) * (getDistance e1 e2 / Rabs xD)).
      - apply sqrt_square. apply Rmult_le_pos; [lra |].
        left. apply Rinv_0_lt_compat. exact HaxD.
      - replace (getDistance e1 e2 / Rabs xD * (getDistance e1 e2 / Rabs xD))
          with ((getDistance e1 e2 * getDistance e1 e2) / (Rabs xD * Rabs xD))
          by (field; lra).
        rewrite HDD, Hsq. field. exact HxD. }
    rewrite Hs.
    replace (- (yD / xD) * X p + 1 * Y p + - (Y e1 - yD / xD * X e1))
      with ((xD * (Y p - Y e1) - yD * (X p - X e1)) / xD) by (field; exact HxD).
    set (c := xD * (Y p - Y e1) - yD * (X p - X e1)).
    replace (c / xD / (getDistance e1 e2 / Rabs xD))
      with (c * (Rabs xD / xD) / getDistance e1 e2) by (field; lra).
    unfold Rdiv at 1. rewrite Rabs_mult, (Rabs_inv (getDistance e1 e2)).
    rewrite (Rabs_pos_eq (getDistance e1 e2)) by lra.
    rewrite Rabs_mult.
    replace (Rabs (Rabs xD / xD)) with 1.
    + unfold Rdiv. ring.
    + unfold Rdiv. rewrite Rabs_mult, Rabs_Rabsolu, Rabs_inv. field.
      apply Rabs_no_R0. exact HxD.
Qed.

Lemma cross_le_norms (a b c d : R) :
  Rabs (a * d - b * c) <= sqrt (a * a + b * b) * sqrt (c * c + d * d).
Proof.
  rewrite <- sqrt_mult by apply sum_sq_nonneg.
  rewrite <- sqrt_sq_abs. apply sqrt_le_1.
  - pose proof (Rle_0_sqr (a * d - b * c)) as H. unfold Rsqr in H. exact H.
  - apply Rmult_le_pos; apply sum_sq_nonneg.
  - pose proof (Rle_0_sqr (a * c + b * d)) as H. unfold Rsqr in H. lra.
Qed.

(** X2: for an edge with distinct end points [__calcEdgeDistance] is the
    distance from [P] to the straight line through the end points: the
    absolute cross product of the edge vector and the vector from the first
    end point to [P], divided by the length of the edge.  It never exceeds
    the distance from [P] to the first end point. *)
Theorem calcEdgeDistance_line_distance :
  forall e1 e2 p : Vector,
    ~ (X e2 = X e1 /\ Y e2 = Y e1) ->
    exists o,
      calcEdgeDistance e1 e2 p = Ok o
      /\ o = Rabs ((X e2 - X e1) * (Y p - Y e1) - (Y e2 - Y e1) * (X p - X e1))
             / getDistance e1 e2
      /\ o <= getDistance e1 p.
Proof.
  intros e1 e2 p Hne.
  pose proof (getDistance_pos e1 e2 Hne) as HD.
  eexists. split; [apply calcEdgeDistance_cross; exact Hne |].
  split; [reflexivity |].
  apply Rmult_le_reg_r with (r := getDistance e1 e2); [exact HD |].
  unfold Rdiv. rewrite Rmult_assoc, Rinv_l, Rmult_1_r by lra.
  rewrite (Rmult_comm (getDistance e1 p)). unfold getDistance.
  apply (cross_le_norms (X e2 - X e1) (Y e2 - Y e1) (X p - X e1) (Y p - Y e1)).
Qed.

Lemma calcEdgeDistance_line_distance_witness :
  exists o,
    calcEdgeDistance (mkVector 0 0) (mkVector 3 4) (mkVector 1 1) = Ok o
    /\ o = Rabs ((3 - 0) * (1 - 0) - (4 - 0) * (1 - 0))
           / getDistance (mkVector 0 0) (mkVector 3 4)
    /\ o <= getDistance (mkVector 0 0) (mkVector 1 1).
Proof.
  apply (calcEdgeDistance_line_distance (mkVector 0 0) (mkVector 3 4) (mkVector 1 1)).
  simpl. lra.
Defined.

(** X3: the edge distance does not depend on the order of the two end
    points (a degenerate edge raises either way), and both end points of a
    proper edge are at distance 0. *)
Theorem calcEdgeDistance_symmetric :
  forall e1 e2 p : Vector,
    calcEdgeDistance e1 e2 p = calcEdgeDistance e2 e1 p
    /\ (~ (X e2 = X e1 /\ Y e2 = Y e1) ->
        calcEdgeDistance e1 e2 e1 = Ok 0 /\ calcEdgeDistance e1 e2 e2 = Ok 0).
Proof.
  intros e1 e2 p. split.
  - destruct (Req_dec_T (X e2) (X e1)) as [HX | HX];
      [destruct (Req_dec_T (Y e2) (Y e1)) as [HY | HY] |].
    + unfold calcEdgeDistance.
      rewrite (proj2 (Reqb_true (X e2) (X e1)) HX).
      rewrite (proj2 (Reqb_true (Y e2) (Y e1)) HY).
      rewrite (proj2 (Reqb_true (X e1) (X e2))) by (symmetry; exact HX).
      rewrite (proj2 (Reqb_true (Y e1) (Y e2))) by (symmetry; exact HY).
      reflexivity.
    + rewrite calcEdgeDistance_cross by (intros [_ H]; contradiction).
      rewrite calcEdgeDistance_cross
        by (intros [_ H]; apply HY; symmetry; exact H).
      f_equal. f_equal.
      * rewrite <- Rabs_Ropp. f_equal. rewrite HX. ring.
      * unfold getDistance. f_equal. ring.
    + rewrite calcEdgeDistance_cross by (intros [H _]; contradiction).
      rewrite calcEdgeDistance_cross
        by (intros [H _]; apply HX; symmetry; exact H).
      f_equal. f_equal.
      * rewrite <- Rabs_Ropp. f_equal. ring.
      * unfold getDistance. f_equal. ring.
  - intros Hne. pose proof (getDistance_pos e1 e2 Hne) as HD.
    rewrite !calcEdgeDistance_cross by exact Hne.
    split; f_equal.
    + replace ((X e2 - X e1) * (Y e1 - Y e1) - (Y e2 - Y e1) * (X e1 - X e1))
        with 0 by ring.
      rewrite Rabs_R0. field. lra.
    + replace ((X e2 - X e1) * (Y e2 - Y e1) - (Y e2 - Y e1) * (X e2 - X e1))
        with 0 by ring.
      rewrite Rabs_R0. field. lra.
Qed.

(** ** Trace length *)

Lemma calcTraceLength_loop_acc :
  forall ps old len,
    calcTraceLength_loop (Some old) len ps
    = len + path_length (map tp_position (old :: ps)).
Proof.
  induction ps as [| p ps IH]; intros old len; simpl.
  - ring.
  - rewrite IH. simpl. ring.
Qed.

Lemma path_length_nonneg (vs : list Vector) : 0 <= path_length vs.
Proof.
  induction vs as [| v [| w rest] IH]; simpl; try lra.
  simpl in IH. pose proof (getDistance_nonneg w v). lra.
Qed.

Lemma calcTraceLength_eq (t : Trace) :
  calcTraceLength t = (Ok (path_length (map tp_position (points t))), t).
Proof.
  unfold calcTraceLength, bind, gets, ret.
  destruct (points t) as [| p ps]; simpl; [reflexivity |].
  rewrite calcTraceLength_loop_acc. simpl. f_equal. f_equal. ring.
Qed.

(** X4: [calcTraceLength] returns the sum of the distances between
    neighbouring trace points (0 for an empty or one-point trace), never a
    negative number, and leaves the trace untouched. *)
Theorem calcTraceLength_path_length :
  forall t : Trace,
    calcTraceLength t = (Ok (path_length (map tp_position (points t))), t)
    /\ 0 <= path_length (map tp_position (points t))
    /\ ((List.length (points t) <= 1)%nat ->
        path_length (map tp_position (points t)) = 0).
Proof.
  intros t. split; [apply calcTraceLength_eq |]. split.
  - apply path_length_nonneg.
  - destruct (points t) as [| p [| q ps]]; simpl; intros H; try reflexivity; lia.
Qed.

Lemma getDistance_sym (a b : Vector) : getDistance a b = getDistance b a.
Proof. unfold getDistance. f_equal. ring. Qed.

Lemma getDistance_triangle (a b c : Vector) :
  getDistance a c <= getDistance a b + getDistance b c.
Proof.
  pose proof (triangle (X c) (Y c) (X a) (Y a) (X b) (Y b)) as H.
  unfold dist_euc, Rsqr in H. unfold getDistance. lra.
Qed.

Lemma last_map_position (ps : list TracePoint) (d : TracePoint) :
  last (map tp_position ps) (tp_position d) = tp_position (last ps d).
Proof.
  induction ps as [| p ps IH]; [reflexivity |].
  destruct ps as [| q ps]; [reflexivity | exact IH].
Qed.

Lemma last_cons_default {A} (a : A) (l : list A) : last (a :: l) a = last l a.
Proof. destruct l; reflexivity. Qed.

Lemma path_length_chord :
  forall (vs : list Vector) (v d : Vector),
    getDistance v (last (v :: vs) d) <= path_length (v :: vs).
Proof.
  induction vs as [| w rest IH]; intros v d.
  - simpl. rewrite getDistance_same_X by reflexivity.
    rewrite Rminus_diag, Rabs_R0. lra.
  - specialize (IH w d).
    change (last (v :: w :: rest) d) with (last (w :: rest) d).
    change (path_length (v :: w :: rest))
      with (getDistance w v + path_length (w :: rest)).
    pose proof (getDistance_triangle v w (last (w :: rest) d)) as Ht.
    rewrite (getDistance_sym w v). lra.
Qed.

(** X5: the straight distance between the newest and the oldest trace point
    never exceeds the trace length computed by [calcTraceLength]. *)
Theorem calcTraceLength_chord :
  forall (t : Trace) (p0 : TracePoint) (rest : list TracePoint),
    points t = p0 :: rest ->
    exists len,
      fst (calcTraceLength t) = Ok len
      /\ getDistance (tp_position p0) (tp_position (last rest p0)) <= len.
Proof.
  intros t p0 rest Hps.
  pose proof (calcTraceLength_eq t) as Heq.
  exists (path_length (map tp_position (points t))).
  split; [rewrite Heq; reflexivity |].
  rewrite Hps.
  pose proof (path_length_chord (map tp_position rest) (tp_position p0)
                (tp_position p0)) as H.
  change (map tp_position (p0 :: rest))
    with (tp_position p0 :: map tp_position rest).
  rewrite <- last_cons_default, <- last_map_position. exact H.
Qed.

(** ** Directions *)

Lemma getAngle_range (u v : Vector) : 0 <= getAngle u v <= PI.
Proof.
  unfold getAngle. destruct (Reqb _ 0).
  - pose proof PI_RGT_0. lra.
  - apply acos_bound.
Qed.

Lemma norm_pos (x y : R) : x <> 0 \/ y <> 0 -> 0 < sqrt (x * x + y * y).
Proof. intros H. apply sqrt_lt_R0. apply sum_sq_pos. exact H. Qed.

Lemma abs_lt_norm (x y : R) : x <> 0 -> Rabs y < sqrt (x * x + y * y).
Proof.
  intros Hx. rewrite <- sqrt_sq_abs. apply sqrt_lt_1.
  - pose proof (Rle_0_sqr y) as H. unfold Rsqr in H. exact H.
  - apply sum_sq_nonneg.
  - apply Rsqr_pos_lt in Hx. unfold Rsqr in Hx. lra.
Qed.

Lemma getAngle_yVector_nonnull (x y : R) :
  x <> 0 \/ y <> 0 ->
  getAngle (mkVector 0 1) (mkVector x y) = acos (y / sqrt (x * x + y * y)).
Proof.
  intros H. rewrite getAngle_yVector.
  pose proof (norm_pos x y H) as Hn.
  rewrite (proj2 (Reqb_false _ 0)) by lra. reflexivity.
Qed.

Lemma getAngle_yVector_oblique (x y : R) :
  x <> 0 -> 0 < getAngle (mkVector 0 1) (mkVector x y) < PI.
Proof.
  intros Hx. rewrite getAngle_yVector_nonnull by (left; exact Hx).
  pose proof (norm_pos x y (or_introl Hx)) as Hn.
  pose proof (abs_lt_norm x y Hx) as Ha.
  apply acos_bound_lt.
  assert (Hlt : Rabs (y / sqrt (x * x + y * y)) < 1).
  { unfold Rdiv. rewrite Rabs_mult, Rabs_inv.
    rewrite (Rabs_pos_eq (sqrt _)) by lra.
    apply Rmult_lt_reg_r with (r := sqrt (x * x + y * y)); [exact Hn |].
    rewrite Rmult_assoc, Rinv_l by lra. lra. }
  apply Rabs_def2 in Hlt. lra.
Qed.

Lemma getDirection_bounds (pos1 pos2 : Vector) :
  (X pos1 < X pos2 -> PI < getDirection pos1 pos2 < 2 * PI)
  /\ (X pos2 <= X pos1 -> 0 <= getDirection pos1 pos2 <= PI).
Proof.
  unfold getDirection. split; intros Hx.
  - rewrite (proj2 (Rltb_true 0 (X pos2 - X pos1))) by lra.
    pose proof (getAngle_yVector_oblique (X pos2 - X pos1) (Y pos2 - Y pos1)) as H.
    lra.
  - rewrite (proj2 (Rltb_false 0 (X pos2 - X pos1))) by lra.
    apply getAngle_range.
Qed.

Lemma getDirection_lt_2PI (pos1 pos2 : Vector) :
  0 <= getDirection pos1 pos2 < 2 * PI.
Proof.
  pose proof PI_RGT_0 as Hpi.
  destruct (getDirection_bounds pos1 pos2) as [Hgt Hle].
  destruct (Rlt_dec (X pos1) (X pos2)) as [H | H].
  - specialize (Hgt H). lra.
  - assert (H' : X pos2 <= X pos1) by lra. specialize (Hle H'). lra.
Qed.

(** X6: [getDirection] always lies in [[0, 2 PI)]; it is above [PI] exactly
    for destinations with a larger X coordinate than the origin, and [0]
    when both positions coincide. *)
Theorem getDirection_range :
  forall pos1 pos2 : Vector,
    0 <= getDirection pos1 pos2 < 2 * PI
    /\ (X pos1 < X pos2 <-> PI < getDirection pos1 pos2)
    /\ getDirection pos1 pos1 = 0.
Proof.
  intros pos1 pos2. pose proof PI_RGT_0 as Hpi.
  destruct (getDirection_bounds pos1 pos2) as [Hgt Hle].
  split; [apply getDirection_lt_2PI |]. split.
  - split; intros H.
    + apply Hgt. exact H.
    + destruct (Rlt_dec (X pos1) (X pos2)) as [H' | H']; [exact H' |].
      assert (H'' : X pos2 <= X pos1) by lra. specialize (Hle H''). lra.
  - unfold getDirection. rewrite getAngle_yVector.
    rewrite !Rminus_diag.
    replace (0 * 0 + 0 * 0) with 0 by ring. rewrite sqrt_0.
    rewrite (proj2 (Reqb_true 0 0)) by reflexivity.
    rewrite (proj2 (Rltb_false 0 0)) by lra. reflexivity.
Qed.

(** X7: the directions from [pos1] to [pos2] and back differ by exactly
    [PI] whenever the two positions are distinct. *)
Theorem getDirection_opposite :
  forall pos1 pos2 : Vector,
    ~ (X pos2 = X pos1 /\ Y pos2 = Y pos1) ->
    Rabs (getDirection pos1 pos2 - getDirection pos2 pos1) = PI.
Proof.
  intros pos1 pos2 Hne. pose proof PI_RGT_0 as Hpi.
  set (x := X pos2 - X pos1). set (y := Y pos2 - Y pos1).
  assert (Hxy : x <> 0 \/ y <> 0).
  { unfold x, y. destruct (Req_dec_T (X pos2) (X pos1)) as [HX | HX].
    - right. intros HY. apply Hne. split; lra.
    - left. lra. }
  assert (Hxy' : - x <> 0 \/ - y <> 0) by (destruct Hxy; [left | right]; lra).
  unfold getDirection.
  replace (X pos1 - X pos2) with (- x) by (unfold x; ring).
  replace (Y pos1 - Y pos2) with (- y) by (unfold y; ring).
  fold x y.
  rewrite (getAngle_yVector_nonnull x y Hxy).
  rewrite (getAngle_yVector_nonnull (- x) (- y) Hxy').
  replace (- x * - x + - y * - y) with (x * x + y * y) by ring.
  pose proof (norm_pos x y Hxy) as Hn.
  set (n := sqrt (x * x + y * y)) in *.
  replace (- y / n) with (- (y / n)) by (field; lra).
  rewrite acos_opp.
  pose proof (acos_bound (y / n)) as Hb.
  destruct (Rlt_dec 0 x) as [Hx | Hx].
  - rewrite (proj2 (Rltb_true 0 x) Hx).
    rewrite (proj2 (Rltb_false 0 (- x))) by lra.
    replace (2 * PI - acos (y / n) - (PI - acos (y / n))) with PI by ring.
    apply Rabs_pos_eq. lra.
  - rewrite (proj2 (Rltb_false 0 x)) by lra.
    destruct (Rlt_dec x 0) as [Hx' | Hx'].
    + rewrite (proj2 (Rltb_true 0 (- x))) by lra.
      replace (acos (y / n) - (2 * PI - (PI - acos (y / n)))) with (- PI) by ring.
      rewrite Rabs_Ropp. apply Rabs_pos_eq. lra.
    + assert (Hx0 : x = 0) by lra.
      rewrite (proj2 (Rltb_false 0 (- x))) by lra.
      assert (Hy : y <> 0) by (destruct Hxy; [lra | assumption]).
      assert (Hn' : n = Rabs y).
      { unfold n. rewrite Hx0. replace (0 * 0 + y * y) with (y * y) by ring.
        apply sqrt_sq_abs. }
      destruct (Rlt_dec 0 y) as [Hy' | Hy'].
      * rewrite Hn', (Rabs_pos_eq y) by lra.
        replace (y / y) with 1 by (field; lra). rewrite acos_1.
        replace (0 - (PI - 0)) with (- PI) by ring.
        rewrite Rabs_Ropp. apply Rabs_pos_eq. lra.
      * rewrite Hn', (Rabs_left y) by lra.
        replace (y / - y) with (- (1)) by (field; lra).
        rewrite acos_opp, acos_1.
        replace (PI - 0 - (PI - (PI - 0))) with PI by ring.
        apply Rabs_pos_eq. lra.
Qed.

Lemma getDirection_opposite_witness :
  Rabs (getDirection (mkVector 0 0) (mkVector 3 4)
        - getDirection (mkVector 3 4) (mkVector 0 0)) = PI.
Proof.
  apply (getDirection_opposite (mkVector 0 0) (mkVector 3 4)).
  simpl. lra.
Defined.

(** ** More on admission *)

Lemma narrow_tube_frame newPos t :
  let t' := narrow_tube newPos t in
  odometer t' = odometer t /\ relevanceArea t' = relevanceArea t
  /\ ntptotal t' = ntptotal t /\ referencePosition t' = referencePosition t
  /\ initialTime t' = initialTime t /\ vehID t' = vehID t
  /\ virtualEvaluationPoints t' = virtualEvaluationPoints t
  /\ TRACE_LENGTH_MAX t' = TRACE_LENGTH_MAX t.
Proof.
  unfold narrow_tube. destruct (points t) as [| p0 rest]; [repeat split |].
  destruct (_ && _)%bool; repeat split.
Qed.

(** X8: [processNewPosition] never touches the reference position, the
    vehicle id, the creation time, the relevance area or the two limits of
    the trace, and the first call on a new trace (no current position yet)
    only records the position. *)
Theorem processNewPosition_frame :
  forall (newPos : Vector) (curSpeed : R) (t : Trace),
    (0 < TRACE_N_MAX t)%Z ->
    let t' := snd (processNewPosition newPos curSpeed t) in
    referencePosition t' = referencePosition t
    /\ vehID t' = vehID t
    /\ initialTime t' = initialTime t
    /\ relevanceArea t' = relevanceArea t
    /\ TRACE_N_MAX t' = TRACE_N_MAX t
    /\ TRACE_LENGTH_MAX t' = TRACE_LENGTH_MAX t
    /\ (currentPos t = None -> t' = set_currentPos (Some newPos) t).
Proof.
  intros newPos curSpeed t Hn t'. unfold t'.
  rewrite processNewPosition_ok by exact Hn. simpl snd.
  split; [| split; [| split; [| split; [| split; [| split]]]]];
    try apply processed_state_TRACE_N_MAX;
    try (intros Hc; unfold processed_state; rewrite Hc; reflexivity);
    unfold processed_state; destruct (currentPos t) as [cur |]; try reflexivity;
    match goal with
    | |- context [narrow_tube newPos ?s] =>
        pose proof (narrow_tube_frame newPos s) as (_ & Hra & _ & Hrp & Hit & Hid & _ & Hlm)
    end;
    simpl in *; destruct (admits newPos t); simpl in *; assumption.
Qed.

Lemma processNewPosition_frame_witness :
  let t' := snd (processNewPosition (mkVector 0 30) 10 fresh_trace) in
  referencePosition t' = referencePosition fresh_trace
  /\ vehID t' = vehID fresh_trace
  /\ initialTime t' = initialTime fresh_trace
  /\ relevanceArea t' = relevanceArea fresh_trace
  /\ TRACE_N_MAX t' = TRACE_N_MAX fresh_trace
  /\ TRACE_LENGTH_MAX t' = TRACE_LENGTH_MAX fresh_trace
  /\ (currentPos fresh_trace = None
      -> t' = set_currentPos (Some (mkVector 0 30)) fresh_trace).
Proof.
  apply (processNewPosition_frame (mkVector 0 30) 10 fresh_trace).
  simpl. lia.
Defined.

(** X9: while the odometer is below [TRACE_MIN_DIST] a call of
    [processNewPosition] on a non-empty trace admits nothing: the points
    and the virtual evaluation points stay as they are and the odometer
    grows by the distance driven since the previous call. *)
Theorem processNewPosition_below_min_dist :
  forall (newPos : Vector) (curSpeed : R) (t : Trace) (cur : Vector),
    (0 < TRACE_N_MAX t)%Z ->
    currentPos t = Some cur ->
    points t <> [] ->
    odometer t < TRACE_MIN_DIST ->
    let t' := snd (processNewPosition newPos curSpeed t) in
    points t' = points t
    /\ ntptotal t' = ntptotal t
    /\ virtualEvaluationPoints t' = virtualEvaluationPoints t
    /\ odometer t' = odometer t + getDistance cur newPos.
Proof.
  intros newPos curSpeed t cur Hn Hcur Hps Hodo t'. unfold t'.
  rewrite processNewPosition_ok by exact Hn. simpl snd.
  rewrite (processed_state_no_admission newPos curSpeed t cur Hcur)
    by (apply admits_short_odometer; assumption).
  pose proof (narrow_tube_frame newPos
                (set_odometer (odometer t + getDistance cur newPos) t))
    as (Ho & _ & Hntp & _ & _ & _ & Hvep & _).
  simpl in *. rewrite narrow_tube_points. simpl.
  repeat split; assumption.
Qed.

Lemma processNewPosition_below_min_dist_witness :
  let t' := snd (processNewPosition (mkVector 0 30) 10 fresh_trace) in
  points t' = points fresh_trace
  /\ ntptotal t' = ntptotal fresh_trace
  /\ virtualEvaluationPoints t' = virtualEvaluationPoints fresh_trace
  /\ odometer t' = odometer fresh_trace + getDistance (mkVector 0 0) (mkVector 0 30).
Proof.
  apply (processNewPosition_below_min_dist (mkVector 0 30) 10 fresh_trace
           (mkVector 0 0)).
  - simpl. lia.
  - reflexivity.
  - simpl. discriminate.
  - simpl. unfold TRACE_MIN_DIST. lra.
Defined.

Lemma rev_head_last {A} (l : list A) (o d : A) (r : list A) :
  rev l = o :: r -> last l d = o.
Proof.
  intros H. rewrite <- (rev_involutive l), H. simpl.
  apply last_last.
Qed.

(** X10: [forcePointCreation] puts the new point in front.  On a trace that
    has not reached [TRACE_N_MAX] the other points are kept; on a full trace
    the oldest point is dropped, so the number of points stays the same, and
    the dropped point is put in front of the virtual evaluation points
    exactly when the trace length is below [MIN_EVALUATION_TRACE_LENGHT]. *)
Theorem forcePointCreation_eviction :
  forall (position : Vector) (v : R) (t : Trace),
    (0 < TRACE_N_MAX t)%Z ->
    let r := forcePointCreation position v t in
    let t' := snd r in
    let new := mkTracePoint (mkVector (X position) (Y position)) NowFunction v (vehID t) in
    let len := path_length (map tp_position (points t)) in
    fst r = Ok tt
    /\ ((Z.of_nat (List.length (points t)) < TRACE_N_MAX t)%Z ->
        points t' = new :: points t
        /\ virtualEvaluationPoints t' = virtualEvaluationPoints t)
    /\ ((TRACE_N_MAX t <= Z.of_nat (List.length (points t)))%Z ->
        points t' = new :: removelast (points t)
        /\ List.length (points t') = List.length (points t)
        /\ (len < MIN_EVALUATION_TRACE_LENGHT ->
            virtualEvaluationPoints t'
            = last (points t) new :: virtualEvaluationPoints t)
        /\ (MIN_EVALUATION_TRACE_LENGHT <= len ->
            virtualEvaluationPoints t' = virtualEvaluationPoints t)).
Proof.
  intros position v t Hn r t' new len. unfold t', r.
  unfold forcePointCreation, addTracePointByPosition.
  rewrite addTracePoint_ok by exact Hn. simpl fst; simpl snd.
  assert (Hlen : calcTraceLength_loop None 0 (points t) = len).
  { pose proof (calcTraceLength_eq t) as H.
    unfold calcTraceLength, bind, gets, ret in H. unfold len. congruence. }
  split; [reflexivity |]. unfold admitted_state. rewrite Hlen. split.
  - intros Hlt. apply Z.leb_gt in Hlt. rewrite Hlt. simpl. split; reflexivity.
  - intros Hfull. pose proof Hfull as Hfull'. apply Z.leb_le in Hfull. rewrite Hfull.
    simpl. split; [reflexivity |].
    assert (Hne : points t <> []).
    { intros H0. rewrite H0 in Hfull'. simpl in Hfull'. lia. }
    split.
    { rewrite length_removelast. destruct (points t); [congruence | simpl; lia]. }
    split.
    + intros Hl. rewrite (proj2 (Rltb_true _ _) Hl).
      destruct (rev (points t)) as [| o os] eqn:Hrev.
      * exfalso. apply Hne. rewrite <- (rev_involutive (points t)), Hrev. reflexivity.
      * rewrite (rev_head_last (points t) o new os Hrev). reflexivity.
    + intros Hl. rewrite (proj2 (Rltb_false _ _) Hl). reflexivity.
Qed.

Lemma forcePointCreation_eviction_witness :
  let position := mkVector 5 5 in
  let v := 10 in
  let t := fresh_trace in
  let r := forcePointCreation position v t in
  let t' := snd r in
  let new := mkTracePoint (mkVector (X position) (Y position)) NowFunction v (vehID t) in
  let len := path_length (map tp_position (points t)) in
  fst r = Ok tt
  /\ ((Z.of_nat (List.length (points t)) < TRACE_N_MAX t)%Z ->
      points t' = new :: points t
      /\ virtualEvaluationPoints t' = virtualEvaluationPoints t)
  /\ ((TRACE_N_MAX t <= Z.of_nat (List.length (points t)))%Z ->
      points t' = new :: removelast (points t)
      /\ List.length (points t') = List.length (points t)
      /\ (len < MIN_EVALUATION_TRACE_LENGHT ->
          virtualEvaluationPoints t'
          = last (points t) new :: virtualEvaluationPoints t)
      /\ (MIN_EVALUATION_TRACE_LENGHT <= len ->
          virtualEvaluationPoints t' = virtualEvaluationPoints t)).
Proof.
  apply (forcePointCreation_eviction (mkVector 5 5) 10 fresh_trace).
  simpl. lia.
Defined.

(** ** Sequences of public operations *)

Lemma Forall_removelast {A} (P : A -> Prop) (l : list A) :
  Forall P l -> Forall P (removelast l).
Proof.
  induction l as [| a l IH]; intros H; simpl; [constructor |].
  inversion H; subst. destruct l; [constructor |].
  constructor; [assumption | apply IH; assumption].
Qed.

Lemma admitted_state_ops_inv id x y currenttime velocity t :
  ops_inv id t ->
  ops_inv id (admitted_state x y currenttime velocity t)
  /\ (List.length (points t)
      <= List.length (points (admitted_state x y currenttime velocity t)))%nat.
Proof.
  intros (Hn & Hne & Hntp & Hid & Hall). unfold ops_inv, admitted_state; simpl.
  destruct (TRACE_N_MAX t <=? Z.of_nat (List.length (points t)))%Z; simpl.
  - rewrite length_removelast.
    assert (0 < List.length (points t))%nat
      by (destruct (points t); [congruence | simpl; lia]).
    repeat split; try assumption; try discriminate; try lia.
    constructor; [simpl; assumption | apply Forall_removelast; assumption].
  - repeat split; try assumption; try discriminate; try lia.
    constructor; [simpl; assumption | assumption].
Qed.

Lemma apply_op_ops_inv id op t :
  ops_inv id t ->
  fst (apply_op op t) = true
  /\ ops_inv id (snd (apply_op op t))
  /\ (List.length (points t) <= List.length (points (snd (apply_op op t))))%nat.
Proof.
  intros Hinv. pose proof Hinv as (Hn & Hne & Hntp & Hid & Hall).
  destruct op as [newPos curSpeed | position v | n l | value]; simpl.
  - rewrite processNewPosition_ok by exact Hn. simpl.
    split; [reflexivity |].
    unfold ops_inv.
    rewrite processed_state_TRACE_N_MAX, processed_state_points.
    unfold processed_state.
    destruct (currentPos t) as [cur |]; simpl.
    + pose proof (admitted_state_ops_inv id (X cur) (Y cur) NowFunction curSpeed t Hinv)
        as [(Hn1 & Hne1 & Hntp1 & Hid1 & Hall1) Hlen1].
      match goal with
      | |- context [narrow_tube newPos ?s] =>
          pose proof (narrow_tube_frame newPos s) as (_ & _ & Hf1 & _ & _ & Hf2 & _ & _)
      end.
      rewrite Hf1, Hf2. clear Hf1 Hf2.
      destruct (admits newPos t); simpl in *.
      * repeat split; try assumption; try discriminate.
      * repeat split; try assumption; try lia.
    + repeat split; try assumption; lia.
  - unfold forcePointCreation, addTracePointByPosition.
    rewrite addTracePoint_ok by exact Hn. simpl.
    split; [reflexivity |].
    apply admitted_state_ops_inv. exact Hinv.
  - pose proof (overwriteMaxTraceLength_positive n l t Hn) as Hpos.
    unfold overwriteMaxTraceLength in *.
    set (n' := match n with Some n => n | None => (-1)%Z end) in *.
    set (l' := match l with Some l => l | None => -1 end) in *.
    unfold bind, modify, ret in *.
    destruct (negb (n' =? 0)%Z && (0 <? n')%Z)%bool;
      destruct (negb (Reqb l' 0) && Rltb 0 l')%bool; simpl in *;
      (split; [reflexivity |]); (split; [| lia]);
      unfold ops_inv; simpl; repeat split; assumption.
  - split; [reflexivity |]. split; [| lia].
    unfold ops_inv; simpl; repeat split; assumption.
Qed.

Lemma apply_ops_ops_inv id ops :
  forall t,
    ops_inv id t ->
    fst (apply_ops ops t) = true
    /\ ops_inv id (snd (apply_ops ops t))
    /\ (List.length (points t) <= List.length (points (snd (apply_ops ops t))))%nat.
Proof.
  induction ops as [| op rest IH]; intros t Hinv; simpl.
  - split; [reflexivity |]. split; [exact Hinv | lia].
  - destruct (apply_op_ops_inv id op t Hinv) as (Hok & Hinv' & Hlen).
    destruct (apply_op op t) as [ok t1]. simpl in *.
    destruct (IH t1 Hinv') as (Hoks & Hinv'' & Hlen').
    destruct (apply_ops rest t1) as [oks t2]. simpl in *.
    subst. split; [reflexivity |]. split; [exact Hinv'' | lia].
Qed.

(** X11: on a constructed trace, any sequence of calls of
    [processNewPosition], [forcePointCreation], [overwriteMaxTraceLength]
    and [setReferencePosition] ends normally (no exception, no handler
    result [1]); afterwards the point list is not empty, the point counter
    equals the number of points, every point carries the vehicle id of the
    trace and [TRACE_N_MAX] is positive.  Later calls never make the point
    list shorter, also after [TRACE_N_MAX] was lowered. *)
Theorem apply_ops_invariant :
  forall (cls_vep : list TracePoint) (initialPosition : Vector)
         (initialTime_ initialV : R) (initialVehId : Z)
         (ops1 ops2 : list TraceOp),
    let t0 := snd (Trace_init cls_vep initialPosition initialTime_ initialV initialVehId) in
    let r1 := apply_ops ops1 t0 in
    let r2 := apply_ops ops2 (snd r1) in
    let t := snd r2 in
    fst r1 = true /\ fst r2 = true
    /\ points t <> []
    /\ ntptotal t = Z.of_nat (List.length (points t))
    /\ (0 < TRACE_N_MAX t)%Z
    /\ vehID t = initialVehId
    /\ Forall (fun p => tp_vehID p = initialVehId) (points t)
    /\ (List.length (points (snd r1)) <= List.length (points t))%nat.
Proof.
  intros cls_vep initialPosition initialTime_ initialV initialVehId ops1 ops2.
  rewrite Trace_init_ok. simpl snd. intros t0 r1 r2 t.
  assert (H0 : ops_inv initialVehId t0).
  { unfold ops_inv, t0; simpl.
    split; [unfold TRACE_N_MAX_default; lia |].
    split; [discriminate |]. split; [reflexivity |]. split; [reflexivity |].
    constructor; [reflexivity | constructor]. }
  destruct (apply_ops_ops_inv initialVehId ops1 t0 H0) as (Hok1 & Hinv1 & _).
  destruct (apply_ops_ops_inv initialVehId ops2 (snd r1) Hinv1)
    as (Hok2 & (Hn & Hne & Hntp & Hid & Hall) & Hlen).
  repeat split; assumption.
Qed.

(** ** More on matching a position *)

(** X12: [matchToPosition] reports [STATUS_MATCH] only for positions inside
    the forwarding area and traces with at least two points; on such a
    trace a position outside the area gets the default quality and
    distance with status [STATUS_NO_MATCH_RELEVANCE_AREA]. *)
Theorem matchToPosition_area_gate :
  forall (position : Vector) (heading : R) (forwardingArea : Area)
         (oldTraceMatch : option TraceMatch) (t : Trace),
    (forall m,
        fst (matchToPosition position heading forwardingArea oldTraceMatch t) = Value m ->
        matchStatus m = STATUS_MATCH ->
        forwardingArea (X position) (Y position) = true
        /\ (2 <= List.length (points t))%nat)
    /\ ((2 <= List.length (points t))%nat ->
        forwardingArea (X position) (Y position) = false ->
        fst (matchToPosition position heading forwardingArea oldTraceMatch t)
        = Value (mkTraceMatch 0 9999 STATUS_NO_MATCH_RELEVANCE_AREA)).
Proof.
  intros position heading area prior t.
  unfold matchToPosition, try_except, matchToPosition_body.
  unfold bind, gets, ret.
  destruct (List.length (points t) <? 2)%nat eqn:Hlen.
  - apply Nat.ltb_lt in Hlen. split.
    + simpl. intros m Hm Hs. inversion Hm; subst. discriminate Hs.
    + intros H. lia.
  - apply Nat.ltb_ge in Hlen.
    destruct (area (X position) (Y position)) eqn:Ha; cbn [negb].
    + split.
      * intros m _ _. split; [reflexivity | exact Hlen].
      * intros _ H. discriminate H.
    + split.
      * simpl. intros m Hm Hs. inversion Hm; subst. discriminate Hs.
      * intros _ _. reflexivity.
Qed.







(** X14: on a trace with exactly two points, if [matchToPosition] is given a
    previous match and reports [STATUS_MATCH], the returned distance is the
    smaller of the previous distance and the distance from the position to
    the newest point, so it never exceeds the previous distance. *)
Theorem matchToPosition_two_points_min :
  forall (position : Vector) (heading : R) (forwardingArea : Area)
         (old : TraceMatch) (t : Trace) (p0 p1_ : TracePoint) (m : TraceMatch),
    points t = [p0; p1_] ->
    fst (matchToPosition position heading forwardingArea (Some old) t) = Value m ->
    matchStatus m = STATUS_MATCH ->
    matchDistance m
    = Rmin (matchDistance old) (getDistance position (tp_position p0))
    /\ matchDistance m <= matchDistance old.
Proof.
  intros position heading area old t p0 q m Hps.
  unfold matchToPosition, try_except, matchToPosition_body.
  unfold bind at 1. unfold gets at 1. rewrite Hps.
  cbn [List.length Nat.ltb Nat.leb]. cbv iota.
  destruct (negb (area (X position) (Y position))).
  { simpl. intros H Hs. inversion H; subst. discriminate Hs. }
  unfold bind at 1. unfold getReferencePosition at 1, gets at 1.
  unfold bind at 1.
  pose proof (ReadOnly_calcCurrentTraceHeading t) as Hro.
  destruct (calcCurrentTraceHeading t) as [[h1 | e] th] eqn:Hh; simpl in Hro; subst th.
  2:{ simpl. intros H. discriminate H. }
  destruct (Rltb (h1 + PI / 2) _).
  { simpl. intros H Hs. inversion H; subst. discriminate Hs. }
  unfold bind at 1. rewrite Hh.
  destruct (Rltb _ (h1 - PI / 2)).
  { simpl. intros H Hs. inversion H; subst. discriminate Hs. }
  unfold bind, gets, lift. rewrite Hps.
  cbn [matchToPosition_loop MatchLoop_init rp1 bmquality bmoffset bmrawdist bmtp
       rawdist oldMatchDistance oldMatchQuality].
  unfold matchToPosition_step.
  destruct (calcEdgeDistance _ _ _) as [offset |] eqn:Hoff;
    [| simpl; intros H; discriminate H].
  cbn [obind bmquality bmoffset bmrawdist bmtp rawdist].
  assert (Hfail : forall s : MatchLoop,
             bmoffset s = 9999 ->
             fst (let (o, t') := (matchToPosition_finish position TraceMatch_init s, t) in
                  match o with
                  | Ok a => (Value a, t')
                  | Raise _ => (IntOne, t')
                  end) = Value m ->
             matchStatus m = STATUS_MATCH -> False).
  { intros s Hb. unfold matchToPosition_finish. rewrite Hb.
    rewrite (proj2 (Rltb_false 9999 9999)) by lra.
    simpl. intros H Hs. inversion H; subst. discriminate Hs. }
  destruct (Rleb offset MATCH_MAX_OFFSET) eqn:F1; cbn [andb].
  2:{ cbn [obind]. intros H Hs. exfalso. eapply Hfail; [| exact H | exact Hs].
      reflexivity. }
  destruct (Rleb _ MATCH_MAX_HEADINGDELTA) eqn:F2.
  2:{ cbn [obind]. intros H Hs. exfalso. eapply Hfail; [| exact H | exact Hs].
      reflexivity. }
  destruct (Rltb _ _) eqn:F3.
  2:{ cbn [obind]. intros H Hs. exfalso. eapply Hfail; [| exact H | exact Hs].
      reflexivity. }
  cbn [obind]. unfold matchToPosition_finish.
  cbn [bmquality bmoffset bmrawdist bmtp rawdist oldMatchDistance oldMatchQuality].
  apply Rleb_true in F1. unfold MATCH_MAX_OFFSET in F1.
  rewrite (proj2 (Rltb_true offset 9999)) by lra.
  replace (getDistance position (tp_position p0) + 0)
    with (getDistance position (tp_position p0)) by ring.
  unfold Rmin.
  destruct (Rltb (matchDistance old) _) eqn:F4; simpl; intros H _;
    inversion H; subst; simpl;
    [apply Rltb_true in F4 | apply Rltb_false in F4];
    destruct (Rle_dec _ _); split; lra.
Qed.

Lemma two_point_trace_match :
  fst (matchToPosition (mkVector 0 20) 0 (fun _ _ => true)
         (Some (mkTraceMatch (1 / 2) 5 STATUS_MATCH)) two_point_trace)
  = Value (mkTraceMatch (1 / 2) 5 STATUS_MATCH).
Proof.
  unfold matchToPosition, try_except, matchToPosition_body, two_point_trace.
  unfold bind at 1. unfold gets at 1. cbn [points List.length Nat.ltb Nat.leb].
  cbv iota. cbn [negb].
  unfold bind at 1. unfold getReferencePosition at 1, gets at 1.
  cbn [referencePosition].
  assert (Href : getDirection (mkVector 0 20) (mkVector 0 40) = 0).
  { apply getDirection_north; simpl; lra. }
  rewrite Href.
  assert (Hhead : forall t, points t = [turn_P0; turn_P1] ->
                            calcCurrentTraceHeading t = (Ok 0, t)).
  { intros t Ht. unfold calcCurrentTraceHeading, bind, gets. rewrite Ht.
    cbn [List.length Nat.ltb Nat.leb]. cbv iota. unfold ret.
    rewrite turn_edge1_direction. reflexivity. }
  unfold bind at 1. rewrite Hhead by reflexivity.
  pose proof PI_RGT_0 as Hpi.
  replace (Rltb (0 + PI / 2) 0) with false by (symmetry; apply Rltb_false; lra).
  unfold bind at 1. rewrite Hhead by reflexivity.
  replace (Rltb 0 (0 - PI / 2)) with false by (symmetry; apply Rltb_false; lra).
  unfold bind at 1. unfold gets at 1. cbn [points].
  unfold bind, lift.
  cbn [matchToPosition_loop MatchLoop_init rp1 bmquality bmoffset bmrawdist bmtp
       rawdist oldMatchDistance oldMatchQuality].
  fold turn_P0 turn_P1.
  rewrite turn_step1. cbn [obind matchToPosition_loop rp1].
  unfold matchToPosition_finish.
  cbn [bmquality bmoffset bmrawdist bmtp rawdist oldMatchDistance oldMatchQuality].
  replace (Rltb 0 9999) with true by (symmetry; apply Rltb_true; lra).
  assert (Hd : getDistance (mkVector 0 20) (mkVector 0 30) = 10).
  { rewrite getDistance_same_X by reflexivity. simpl.
    rewrite Rabs_pos_eq by lra. lra. }
  rewrite Hd.
  replace (Rltb 5 (10 + 0)) with true by (symmetry; apply Rltb_true; lra).
  reflexivity.
Qed.

Lemma matchToPosition_two_points_min_witness :
  matchDistance (mkTraceMatch (1 / 2) 5 STATUS_MATCH)
  = Rmin (matchDistance (mkTraceMatch (1 / 2) 5 STATUS_MATCH))
      (getDistance (mkVector 0 20) (tp_position turn_P0))
  /\ matchDistance (mkTraceMatch (1 / 2) 5 STATUS_MATCH)
     <= matchDistance (mkTraceMatch (1 / 2) 5 STATUS_MATCH).
Proof.
  apply (matchToPosition_two_points_min (mkVector 0 20) 0 (fun _ _ => true)
           (mkTraceMatch (1 / 2) 5 STATUS_MATCH) two_point_trace turn_P0 turn_P1
           (mkTraceMatch (1 / 2) 5 STATUS_MATCH)).
  - reflexivity.
  - exact two_point_trace_match.
  - reflexivity.
Defined.

Lemma calcEdgeDistance_defined e1 e2 p :
  ~ (X e2 = X e1 /\ Y e2 = Y e1) -> exists o, calcEdgeDistance e1 e2 p = Ok o.
Proof. intros H. eexists. apply calcEdgeDistance_cross. exact H. Qed.

Lemma matchToPosition_step_defined position heading prior r1 r2 s :
  ~ (X (tp_position r2) = X (tp_position r1)
     /\ Y (tp_position r2) = Y (tp_position r1)) ->
  MatchLoop_bound s ->
  exists s',
    matchToPosition_step position heading prior r1 r2 s = Ok s'
    /\ MatchLoop_bound s' /\ rp1 s' = Some r2.
Proof.
  intros Hne Hb. unfold matchToPosition_step.
  destruct (calcEdgeDistance_defined (tp_position r1) (tp_position r2) position Hne)
    as [offset Hoff].
  rewrite Hoff. cbn [obind].
  assert (Hkeep : forall d q rd,
    MatchLoop_bound (mkMatchLoop (Some r2) (bmquality s) (bmoffset s) (bmrawdist s)
                       (bmtp s) rd (Some d) (Some q))).
  { intros d q rd. destruct Hb as [Hb | (v & d0 & q0 & Hv & _ & _)].
    - left. exact Hb.
    - right. exists v, d, q. simpl. repeat split; assumption. }
  destruct (Rleb offset MATCH_MAX_OFFSET && Rleb _ MATCH_MAX_HEADINGDELTA)%bool.
  - destruct prior as [old |]; destruct (Rltb _ _); eexists;
      (split; [reflexivity |]); (split; [| reflexivity]);
      try apply Hkeep; right; do 3 eexists; simpl; repeat split.
  - eexists. split; [reflexivity |]. split; [apply Hkeep | reflexivity].
Qed.

Lemma matchToPosition_loop_defined position heading prior :
  forall ps r1 s,
    rp1 s = Some r1 ->
    distinct_neighbours (r1 :: ps) ->
    MatchLoop_bound s ->
    exists s',
      matchToPosition_loop position heading prior ps s = Ok s'
      /\ MatchLoop_bound s'.
Proof.
  induction ps as [| p ps IH]; intros r1 s Hr Hd Hb.
  - exists s. split; [reflexivity | exact Hb].
  - destruct Hd as [Hne Hd]. simpl. rewrite Hr.
    destruct (matchToPosition_step_defined position heading prior r1 p s Hne Hb)
      as (s1 & Hs1 & Hb1 & Hr1).
    rewrite Hs1. cbn [obind]. apply (IH p s1 Hr1 Hd Hb1).
Qed.

(** X15: on a trace in which no two neighbouring points share their
    position [matchToPosition] always returns a [TraceMatch]: the sweep
    meets no degenerate edge, so the handler's [1] is never returned. *)
Theorem matchToPosition_returns_TraceMatch :
  forall (position : Vector) (heading : R) (forwardingArea : Area)
         (oldTraceMatch : option TraceMatch) (t : Trace),
    distinct_neighbours (points t) ->
    exists m,
      fst (matchToPosition position heading forwardingArea oldTraceMatch t) = Value m.
Proof.
  intros position heading area prior t Hd.
  unfold matchToPosition, try_except, matchToPosition_body.
  unfold bind at 1. unfold gets at 1.
  destruct (points t) as [| p0 [| q rest]] eqn:Hps;
    cbn [List.length Nat.ltb Nat.leb]; cbv iota;
    try (eexists; reflexivity).
  destruct (negb (area (X position) (Y position))); [eexists; reflexivity |].
  unfold bind at 1. unfold getReferencePosition at 1, gets at 1.
  assert (Hhead : calcCurrentTraceHeading t
                  = (Ok (getDirection (tp_position q) (tp_position p0)), t)).
  { unfold calcCurrentTraceHeading, bind, gets. rewrite Hps. reflexivity. }
  unfold bind at 1. rewrite Hhead.
  destruct (Rltb _ _); [eexists; reflexivity |].
  unfold bind at 1. rewrite Hhead.
  destruct (Rltb _ _); [eexists; reflexivity |].
  unfold bind, gets, lift. rewrite Hps.
  cbn [matchToPosition_loop MatchLoop_init rp1 bmquality bmoffset bmrawdist bmtp
       rawdist oldMatchDistance oldMatchQuality].
  destruct (matchToPosition_loop_defined position heading prior (q :: rest) p0
              (mkMatchLoop (Some p0) 0 9999 0 None 0 None None) eq_refl Hd
              (or_introl eq_refl)) as (s & Hs & Hb).
  cbn [matchToPosition_loop rp1] in Hs. rewrite Hs.
  unfold matchToPosition_finish.
  destruct (Rltb (bmoffset s) 9999) eqn:Hlt; [| eexists; reflexivity].
  destruct Hb as [Hb | (v & d & qq & Hv & Hod & Hoq)].
  - apply Rltb_true in Hlt. lra.
  - rewrite Hv, Hod, Hoq. destruct (Rltb d _); eexists; reflexivity.
Qed.

Lemma matchToPosition_returns_TraceMatch_witness :
  exists m,
    fst (matchToPosition (mkVector 0 20) 0 (fun _ _ => true) None two_point_trace)
    = Value m.
Proof.
  apply (matchToPosition_returns_TraceMatch (mkVector 0 20) 0 (fun _ _ => true)
           None two_point_trace).
  simpl. split; [lra | exact I].
Defined.

(** ** More on matching two traces *)

Lemma matchToOtherTrace_for_empty xoff yoff :
  forall rps1 s,
    exists s',
      matchToOtherTrace_for xoff yoff [] rps1 s = Ok s'
      /\ totalmatches s' = totalmatches s.
Proof.
  induction rps1 as [| r rest IH]; intros s; simpl.
  - exists s. split; reflexivity.
  - destruct (o_rp1 s) as [r1 |].
    + replace (skipn (i2 s) (@nil TracePoint)) with (@nil TracePoint)
        by (destruct (i2 s); reflexivity).
      simpl.
      destruct (IH (mkOtherLoop (Some r) (i2 s) (totaloffsets s) (totalmatches s)
                      (dist s))) as (s' & Hs & Hm).
      exists s'. split; [exact Hs | exact Hm].
    + destruct (IH (mkOtherLoop (Some r) (i2 s) (totaloffsets s) (totalmatches s)
                      (dist s))) as (s' & Hs & Hm).
      exists s'. split; [exact Hs | exact Hm].
Qed.

(** X16: [matchToOtherTrace] returns 0 when this trace has fewer than two
    points (it has no edge) or when the other trace has no points. *)
Theorem matchToOtherTrace_zero :
  forall self atrace : Trace,
    (List.length (points self) < 2)%nat \/ points atrace = [] ->
    fst (matchToOtherTrace atrace self) = Value 0.
Proof.
  intros self atrace H.
  unfold matchToOtherTrace, matchToOtherTrace_private, try_except,
    matchToOtherTrace_body, bind, getPoints, gets, lift, ret.
  destruct H as [H | H].
  - destruct (points self) as [| p [| q rest]]; simpl in *; try reflexivity; lia.
  - rewrite H.
    match goal with
    | |- context [matchToOtherTrace_for ?x ?y [] ?l ?s] =>
        destruct (matchToOtherTrace_for_empty x y l s) as (s' & Hs & Hm);
        rewrite Hs
    end.
    simpl in Hm. rewrite Hm. reflexivity.
Qed.

Lemma matchToOtherTrace_zero_witness :
  fst (matchToOtherTrace fresh_trace fresh_trace) = Value 0.
Proof.
  apply (matchToOtherTrace_zero fresh_trace fresh_trace).
  left. simpl. lia.
Defined.

(** ** Forwarding areas *)

Lemma last_default_irrelevant {A} (l : list A) (a d d' : A) :
  last (a :: l) d = last (a :: l) d'.
Proof.
  revert a. induction l as [| b l IH]; intros a; [reflexivity |].
  change (last (a :: b :: l) d) with (last (b :: l) d).
  change (last (a :: b :: l) d') with (last (b :: l) d').
  apply IH.
Qed.

Lemma calcHeadingForwardingArea_loop_find refPos d :
  forall ps tPos,
    calcHeadingForwardingArea_loop refPos d tPos ps
    = match find (fun tp => Rltb d (getDistance (tp_position tp) refPos)) ps with
      | Some tp => tp_position tp
      | None => last (map tp_position ps) tPos
      end.
Proof.
  induction ps as [| p ps IH]; intros tPos; simpl; [reflexivity |].
  destruct (Rltb d (getDistance (tp_position p) refPos)); [reflexivity |].
  rewrite IH. destruct (find _ ps); [reflexivity |].
  destruct ps as [| q ps]; [reflexivity |].
  apply last_default_irrelevant.
Qed.

(** X17: [calcHeadingForwardingArea] is the direction from the reference
    position to the newest trace point that lies farther than [d] from it;
    when no point is that far it is the direction to the oldest point, and
    for an empty point list the direction to the origin [(0, 0)]. *)
Theorem calcHeadingForwardingArea_spec :
  forall (tracePoints : list TracePoint) (refPos : Vector) (d : R),
    calcHeadingForwardingArea tracePoints refPos d
    = getDirection refPos
        match find (fun tp => Rltb d (getDistance (tp_position tp) refPos))
                tracePoints with
        | Some tp => tp_position tp
        | None => last (map tp_position tracePoints) (mkVector 0 0)
        end
    /\ 0 <= calcHeadingForwardingArea tracePoints refPos d < 2 * PI.
Proof.
  intros tracePoints refPos d. unfold calcHeadingForwardingArea.
  split.
  - rewrite calcHeadingForwardingArea_loop_find. reflexivity.
  - apply getDirection_lt_2PI.
Qed.

Lemma Vector_eta (v : Vector) : mkVector (X v) (Y v) = v.
Proof. destruct v; reflexivity. Qed.

Lemma getDistance_self (v : Vector) : getDistance v v = 0.
Proof.
  rewrite getDistance_same_X by reflexivity. rewrite Rminus_diag. apply Rabs_R0.
Qed.

Lemma getDistance_polar (v : Vector) (o h : R) :
  getDistance v (mkVector (X v + o * sin h) (Y v + o * cos h)) = Rabs o.
Proof.
  unfold getDistance; simpl.
  replace ((X v + o * sin h - X v) * (X v + o * sin h - X v)
           + (Y v + o * cos h - Y v) * (Y v + o * cos h - Y v))
    with (o * o * (Rsqr (sin h) + Rsqr (cos h))) by (unfold Rsqr; ring).
  rewrite sin2_cos2, Rmult_1_r. apply sqrt_sq_abs.
Qed.

(** X18: [createCircularArea] always returns a circle (never the handler's
    [1]) with the requested radius, leaves the trace untouched, and places
    the centre exactly [|offset|] away from the reference position; with
    offset 0 the centre is the reference position itself, which the circle
    then contains whenever the radius is not negative. *)
Theorem createCircularArea_spec :
  forall (radius_ offset : R) (t : Trace),
    exists c,
      createCircularArea radius_ offset t = (Value c, t)
      /\ radius c = radius_
      /\ getDistance (referencePosition t) (center c) = Rabs offset
      /\ (offset = 0 ->
          center c = referencePosition t
          /\ (Circle_area c (X (referencePosition t)) (Y (referencePosition t)) = true
              <-> 0 <= radius_)).
Proof.
  intros radius_ offset t.
  unfold createCircularArea, try_except, createCircularArea_body, bind, gets, ret.
  destruct (Reqb offset 0) eqn:Ho; cbn [negb].
  - apply Reqb_true in Ho. eexists. split; [reflexivity |]. simpl.
    rewrite Vector_eta, getDistance_self. subst offset. rewrite Rabs_R0.
    split; [reflexivity |]. split; [reflexivity |]. intros _.
    split; [reflexivity |].
    unfold Circle_area, Circle_contains; simpl. rewrite !Vector_eta.
    rewrite getDistance_self. apply Rleb_true.
  - apply Reqb_false in Ho.
    pose proof (getDirection_lt_2PI (referencePosition t)
                  (calcHeadingForwardingArea_loop (referencePosition t)
                     (radius_ - offset) (mkVector 0 0) (points t))) as Hh.
    fold (calcHeadingForwardingArea (points t) (referencePosition t) (radius_ - offset))
      in Hh.
    pose proof PI_4 as Hpi.
    rewrite (proj2 (Reqb_false _ MAX_VALUE)) by (unfold MAX_VALUE; lra).
    cbn [negb]. eexists. split; [reflexivity |]. simpl.
    split; [reflexivity |]. split; [apply getDistance_polar |].
    intros H. contradiction.
Qed.

(** ** Rectangles *)

Lemma Rectangle_contains_step_flat x y s qx qy :
  p1y s = qy ->
  Rectangle_contains_step x y s (qx, qy)
  = Ok (mkRayLoop (inside s) qx qy (xinters s)).
Proof.
  intros H. unfold Rectangle_contains_step. rewrite H.
  unfold Rmin, Rmax. destruct (Rle_dec qy qy); [| lra].
  destruct (Rltb qy y) eqn:H1; [| reflexivity].
  apply Rltb_true in H1.
  rewrite (proj2 (Rleb_false y qy)) by exact H1. reflexivity.
Qed.

Lemma Rectangle_contains_step_upright x y s qx qy :
  p1x s = qx -> p1y s <> qy ->
  exists xi,
    Rectangle_contains_step x y s (qx, qy)
    = Ok (mkRayLoop
            (xorb (inside s)
               (Rltb (Rmin (p1y s) qy) y && Rleb y (Rmax (p1y s) qy) && Rleb x qx))
            qx qy xi).
Proof.
  intros HX HY. unfold Rectangle_contains_step. rewrite HX.
  rewrite (proj2 (Reqb_true qx qx)) by reflexivity.
  replace (Rmax qx qx) with qx by (unfold Rmax; destruct (Rle_dec qx qx); reflexivity).
  destruct (Rltb (Rmin (p1y s) qy) y); cbn [andb];
    [| eexists; rewrite xorb_false_r; reflexivity].
  destruct (Rleb y (Rmax (p1y s) qy)); cbn [andb];
    [| eexists; rewrite xorb_false_r; reflexivity].
  destruct (Rleb x qx);
    [eexists; rewrite xorb_true_r | eexists; rewrite xorb_false_r]; reflexivity.
Qed.

Lemma Rectangle_getHeading_north x1 y1 y2 w :
  y1 < y2 ->
  Rectangle_getHeading (mkRectangle (mkVector x1 y1) (mkVector x1 y2) w) = 0.
Proof.
  intros H. unfold Rectangle_getHeading; simpl.
  rewrite getAngle_yVector_nonnull by (right; lra).
  rewrite Rminus_diag.
  replace (0 * 0 + (y2 - y1) * (y2 - y1)) with ((y2 - y1) * (y2 - y1)) by ring.
  rewrite sqrt_sq_abs, Rabs_pos_eq by lra.
  replace ((y2 - y1) / (y2 - y1)) with 1 by (field; lra).
  apply acos_1.
Qed.

(** X19: for a rectangle whose edge [p1 -> p2] points along +Y (same X,
    [p1.Y < p2.Y]) and whose width is not negative, [Rectangle.contains]
    never raises and holds exactly for the points with
    [p1.Y < y <= p2.Y] and [p1.X - width < x <= p1.X]: the rectangle lies on
    the -X side of the edge, its lower and left borders excluded. *)
Theorem Rectangle_contains_north :
  forall x1 y1 y2 w x y : R,
    y1 < y2 -> 0 <= w ->
    Rectangle_contains (mkRectangle (mkVector x1 y1) (mkVector x1 y2) w) x y
    = Ok (Rltb y1 y && Rleb y y2 && Rltb (x1 - w) x && Rleb x x1)%bool.
Proof.
  intros x1 y1 y2 w x y Hy Hw.
  unfold Rectangle_contains, Rectangle_getP3, Rectangle_getP4.
  rewrite Rectangle_getHeading_north by exact Hy.
  rewrite cos_0, sin_0. cbn [X Y p1 p2 width app].
  replace (x1 - w * 1) with (x1 - w) by ring.
  replace (y2 - w * 0) with y2 by ring.
  replace (y1 - w * 0) with y1 by ring.
  cbn [Rectangle_contains_loop].
  rewrite Rectangle_contains_step_flat by reflexivity. cbn [obind inside xinters].
  destruct (Rectangle_contains_step_upright x y (mkRayLoop false x1 y1 None) x1 y2)
    as [xi1 H1]; [reflexivity | simpl; lra |].
  rewrite H1. cbn [obind inside p1x p1y xorb].
  rewrite Rectangle_contains_step_flat by reflexivity. cbn [obind inside xinters].
  match goal with
  | |- context [Rectangle_contains_step x y ?s (x1 - w, y1)] =>
      destruct (Rectangle_contains_step_upright x y s (x1 - w) y1)
        as [xi2 H2]; [reflexivity | simpl; lra |]
  end.
  rewrite H2. cbn [obind inside p1x p1y].
  rewrite Rectangle_contains_step_flat by reflexivity. cbn [obind inside].
  f_equal.
  replace (Rmin y1 y2) with y1 by (unfold Rmin; destruct (Rle_dec y1 y2); lra).
  replace (Rmax y1 y2) with y2 by (unfold Rmax; destruct (Rle_dec y1 y2); lra).
  replace (Rmin y2 y1) with y1 by (unfold Rmin; destruct (Rle_dec y2 y1); lra).
  replace (Rmax y2 y1) with y2 by (unfold Rmax; destruct (Rle_dec y2 y1); lra).
  destruct (Rltb y1 y); cbn [andb xorb]; [| reflexivity].
  destruct (Rleb y y2); cbn [andb xorb]; [| reflexivity].
  destruct (Rleb x x1) eqn:A; destruct (Rleb x (x1 - w)) eqn:B;
    destruct (Rltb (x1 - w) x) eqn:C; try reflexivity;
    try apply Rleb_true in A; try apply Rleb_false in A;
    try apply Rleb_true in B; try apply Rleb_false in B;
    try apply Rltb_true in C; try apply Rltb_false in C; lra.
Qed.

Lemma Rectangle_contains_north_witness :
  Rectangle_contains (mkRectangle (mkVector 0 0) (mkVector 0 100) 10) (-6) 50
  = Ok (Rltb 0 50 && Rleb 50 100 && Rltb (0 - 10) (-6) && Rleb (-6) 0)%bool.
Proof.
  apply (Rectangle_contains_north 0 0 100 10 (-6) 50); lra.
Defined.

Lemma maxoffset_loop_defined refPos oldest :
  forall ps m,
    exists m', maxoffset_loop refPos oldest ps m = Ok m' /\ m <= m'.
Proof.
  induction ps as [| p ps IH]; intros m; simpl.
  - exists m. split; [reflexivity | lra].
  - destruct (Reqb (X oldest) (X refPos) && Reqb (Y oldest) (Y refPos))%bool eqn:Hg;
      cbn [negb].
    + apply IH.
    + assert (Hne : ~ (X oldest = X refPos /\ Y oldest = Y refPos)).
      { intros [HX HY]. apply Reqb_true in HX. apply Reqb_true in HY.
        rewrite HX, HY in Hg. discriminate Hg. }
      destruct (calcEdgeDistance_defined refPos oldest (tp_position p) Hne)
        as [dev Hdev].
      rewrite Hdev. cbn [obind].
      destruct (IH (if Rltb m dev then dev else m)) as (m' & Hm' & Hle).
      exists m'. split; [exact Hm' |].
      destruct (Rltb m dev) eqn:Hlt; [apply Rltb_true in Hlt |]; lra.
Qed.

Lemma Rectangle_getLength_polar (a b l h w : R) :
  Rectangle_getLength
    (mkRectangle (mkVector a b) (mkVector (a - l * sin h) (b + l * cos h)) w)
  = Rabs l.
Proof.
  unfold Rectangle_getLength; simpl.
  replace ((a - (a - l * sin h)) * ((a - (a - l * sin h)) * 1)
           + (b - (b + l * cos h)) * ((b - (b + l * cos h)) * 1))
    with (l * l * (Rsqr (sin h) + Rsqr (cos h))) by (unfold Rsqr; ring).
  rewrite sin2_cos2, Rmult_1_r. apply sqrt_sq_abs.
Qed.

(** X20: [calculateRectangularArea] always returns a rectangle (never the
    handler's [1]) and leaves the trace untouched.  Its long edge has the
    requested length, or [|traceDist - offset|] when the requested length
    exceeds the distance [traceDist] from the reference position to the
    oldest point.  On a non-empty trace a width that is not negative is
    taken as given, and a negative width is replaced by one of at least
    [2 * AREA_WIDTH_OVERFLOW]; on an empty trace a width that is not
    positive is replaced by the length. *)
Theorem calculateRectangularArea_spec :
  forall (width_ length offset : R) (t : Trace),
    exists r,
      calculateRectangularArea width_ length offset t = (Value r, t)
      /\ (points t = [] ->
          Rectangle_getLength r = Rabs length
          /\ width r = if Rleb width_ 0 then length else width_)
      /\ (forall d : TracePoint,
             points t <> [] ->
             let traceDist :=
               getDistance (referencePosition t) (tp_position (last (points t) d)) in
             Rectangle_getLength r
             = Rabs (if Rltb traceDist length then traceDist - offset else length)
             /\ (0 <= width_ -> width r = width_)
             /\ (width_ < 0 -> 2 * AREA_WIDTH_OVERFLOW <= width r)).
Proof.
  intros width_ length offset t.
  unfold calculateRectangularArea, try_except, calculateRectangularArea_body.
  unfold bind at 1. unfold gets at 1.
  unfold bind at 1. unfold gets at 1.
  unfold bind at 1.
  destruct (points t) as [| p ps] eqn:Hps.
  - cbn [List.length Nat.ltb Nat.leb]. cbv iota. unfold ret.
    eexists. split; [reflexivity |]. split.
    + intros _. split; [apply Rectangle_getLength_polar | reflexivity].
    + intros d H. congruence.
  - cbn [List.length Nat.ltb Nat.leb]. cbv iota.
    destruct (rev (p :: ps)) as [| o os] eqn:Hrev.
    { exfalso. apply (f_equal (@List.length _)) in Hrev.
      rewrite length_rev in Hrev. discriminate Hrev. }
    assert (Hlast : forall d, last (p :: ps) d = o).
    { intros d. apply (rev_head_last (p :: ps) o d os Hrev). }
    destruct (Rltb width_ 0) eqn:Hw.
    + apply Rltb_true in Hw.
      destruct (maxoffset_loop_defined (referencePosition t) (tp_position o)
                  (p :: ps) 0) as (mo & Hmo & Hmo0).
      unfold bind at 1. unfold lift at 1. rewrite Hmo. unfold ret.
      eexists. split; [reflexivity |]. split; [intros H; discriminate H |].
      intros d _. rewrite Hlast. cbv zeta.
      split; [apply Rectangle_getLength_polar |].
      split; [intros H; lra |].
      intros _. simpl. unfold AREA_WIDTH_OVERFLOW. lra.
    + apply Rltb_false in Hw. unfold ret.
      eexists. split; [reflexivity |]. split; [intros H; discriminate H |].
      intros d _. rewrite Hlast. cbv zeta.
      split; [apply Rectangle_getLength_polar |].
      split; [intros _; reflexivity |].
      intros H. lra.
Qed.

(** ** A trace matched against itself *)

Lemma OtherLoop_exact_match (s : OtherLoop) (offset d : R) :
  OtherLoop_exact s ->
  0 <= offset < MATCH_MAX_OFFSET ->
  OtherLoop_exact
    (mkOtherLoop (o_rp1 s) (S (i2 s)) (totaloffsets s + offset)
       (totalmatches s + 1) d).
Proof.
  intros (Ht0 & Ht1 & Ht2 & Hm) Ho.
  unfold OtherLoop_exact; simpl. rewrite plus_IZR. unfold MATCH_MAX_OFFSET in *.
  split; [lra |]. split; [lra |]. split; [intros _; lra | lia].
Qed.

Lemma matchToOtherTrace_while_exact xoff yoff r1 r2 :
  forall rest s s',
    OtherLoop_exact s ->
    matchToOtherTrace_while xoff yoff r1 r2 rest s = Ok s' ->
    OtherLoop_exact s' /\ (i2 s <= i2 s')%nat.
Proof.
  induction rest as [| q rest IH]; intros s s' Hinv Hrun; simpl in Hrun.
  - inversion Hrun; subst. split; [exact Hinv | lia].
  - destruct (calcEdgeDistance _ _ _) as [offset |] eqn:Hoff; simpl in Hrun;
      [| discriminate].
    apply calcEdgeDistance_nonneg in Hoff.
    destruct (Rltb offset MATCH_MAX_OFFSET) eqn:Hlt.
    + apply Rltb_true in Hlt.
      apply IH in Hrun.
      * destruct Hrun as (Hinv' & Hi). simpl in Hi.
        split; [exact Hinv' | lia].
      * apply OtherLoop_exact_match; [exact Hinv | lra].
    + inversion Hrun; subst.
      split; [| simpl; lia].
      destruct Hinv as (Ht0 & Ht1 & Ht2 & Hm). unfold OtherLoop_exact; simpl.
      split; [exact Ht0 |]. split; [exact Ht1 |]. split; assumption.
Qed.

Lemma calcEdgeDistance_endpoint (e1 e2 q : Vector) (o : R) :
  q = e1 \/ q = e2 ->
  calcEdgeDistance e1 e2 (mkVector (X q + 0) (Y q + 0)) = Ok o -> o = 0.
Proof.
  intros Hq. rewrite !Rplus_0_r, Vector_eta.
  destruct (Req_dec_T (X e2) (X e1)) as [HX | HX];
    [destruct (Req_dec_T (Y e2) (Y e1)) as [HY | HY] |].
  - unfold calcEdgeDistance.
    rewrite (proj2 (Reqb_true _ _) HX), (proj2 (Reqb_true _ _) HY).
    intros H. discriminate H.
  - rewrite calcEdgeDistance_cross by (intros [_ H]; contradiction).
    intros H. inversion H.
    destruct Hq as [Hq | Hq]; subst q;
      match goal with
      | |- Rabs ?c / _ = 0 => replace c with 0 by ring
      end; rewrite Rabs_R0; unfold Rdiv; ring.
  - rewrite calcEdgeDistance_cross by (intros [H _]; contradiction).
    intros H. inversion H.
    destruct Hq as [Hq | Hq]; subst q;
      match goal with
      | |- Rabs ?c / _ = 0 => replace c with 0 by ring
      end; rewrite Rabs_R0; unfold Rdiv; ring.
Qed.

Lemma matchToOtherTrace_while_consumes r1 r2 q rest s s' :
  q = r1 \/ q = r2 ->
  OtherLoop_exact s ->
  matchToOtherTrace_while 0 0 r1 r2 (q :: rest) s = Ok s' ->
  exists s1,
    OtherLoop_exact s1 /\ i2 s1 = S (i2 s)
    /\ matchToOtherTrace_while 0 0 r1 r2 rest s1 = Ok s'.
Proof.
  intros Hq Hinv Hrun. simpl in Hrun.
  destruct (calcEdgeDistance _ _ _) as [offset |] eqn:Hoff; simpl in Hrun;
    [| discriminate].
  apply calcEdgeDistance_endpoint in Hoff;
    [| destruct Hq as [Hq | Hq]; subst q; [left | right]; reflexivity].
  subst offset.
  rewrite (proj2 (Rltb_true 0 MATCH_MAX_OFFSET)) in Hrun
    by (unfold MATCH_MAX_OFFSET; lra).
  eexists. split; [| split; [| exact Hrun]]; [| reflexivity].
  apply OtherLoop_exact_match; [exact Hinv | unfold MATCH_MAX_OFFSET; lra].
Qed.

Lemma skipn_app_exact {A} (pre l : list A) : skipn (List.length pre) (pre ++ l) = l.
Proof. induction pre as [| a pre IH]; simpl; [reflexivity | exact IH]. Qed.

Lemma skipn_app_succ {A} (pre : list A) (a : A) (l : list A) :
  skipn (S (List.length pre)) (pre ++ a :: l) = l.
Proof. induction pre as [| b pre IH]; simpl; [reflexivity | exact IH]. Qed.

Lemma matchToOtherTrace_edge_progress pre r r2 rest1 s s' :
  OtherLoop_exact s ->
  (List.length pre <= i2 s)%nat ->
  matchToOtherTrace_while 0 0 r r2 (skipn (i2 s) (pre ++ r :: r2 :: rest1)) s = Ok s' ->
  OtherLoop_exact s' /\ (List.length pre + 2 <= i2 s')%nat.
Proof.
  intros Hinv Hi Hrun.
  destruct (Nat.eq_dec (i2 s) (List.length pre)) as [E0 | N0].
  - rewrite E0, skipn_app_exact in Hrun.
    apply matchToOtherTrace_while_consumes in Hrun; [| left; reflexivity | exact Hinv].
    destruct Hrun as (s1 & Hinv1 & Hi1 & Hrun).
    apply matchToOtherTrace_while_consumes in Hrun; [| right; reflexivity | exact Hinv1].
    destruct Hrun as (s2 & Hinv2 & Hi2 & Hrun).
    apply matchToOtherTrace_while_exact in Hrun; [| exact Hinv2].
    destruct Hrun as (Hinv' & Hi'). split; [exact Hinv' | lia].
  - destruct (Nat.eq_dec (i2 s) (S (List.length pre))) as [E1 | N1].
    + rewrite E1, skipn_app_succ in Hrun.
      apply matchToOtherTrace_while_consumes in Hrun;
        [| right; reflexivity | exact Hinv].
      destruct Hrun as (s1 & Hinv1 & Hi1 & Hrun).
      apply matchToOtherTrace_while_exact in Hrun; [| exact Hinv1].
      destruct Hrun as (Hinv' & Hi'). split; [exact Hinv' | lia].
    + apply matchToOtherTrace_while_exact in Hrun; [| exact Hinv].
      destruct Hrun as (Hinv' & Hi'). split; [exact Hinv' | lia].
Qed.

Lemma matchToOtherTrace_for_progress (L : list TracePoint) :
  forall rest1 pre r s s',
    L = pre ++ r :: rest1 ->
    o_rp1 s = Some r ->
    OtherLoop_exact s ->
    (List.length pre <= i2 s)%nat ->
    (rest1 = [] -> (List.length pre + 1 <= i2 s)%nat) ->
    matchToOtherTrace_for 0 0 L rest1 s = Ok s' ->
    OtherLoop_exact s' /\ (List.length L <= i2 s')%nat.
Proof.
  induction rest1 as [| r2 rest1 IH]; intros pre r s s' HL Hr Hinv Hi Hlast Hrun.
  - simpl in Hrun. inversion Hrun; subst s'.
    split; [exact Hinv |]. rewrite HL, length_app. simpl.
    specialize (Hlast eq_refl). lia.
  - simpl in Hrun. rewrite Hr in Hrun.
    destruct (matchToOtherTrace_while 0 0 r r2 (skipn (i2 s) L) s) as [s1 |] eqn:Hw;
      simpl in Hrun; [| discriminate].
    rewrite HL in Hw.
    apply matchToOtherTrace_edge_progress in Hw; [| exact Hinv | exact Hi].
    destruct Hw as (Hinv1 & Hi1).
    apply (IH (pre ++ [r]) r2) in Hrun.
    + exact Hrun.
    + rewrite HL, <- app_assoc. reflexivity.
    + reflexivity.
    + destruct Hinv1 as (? & ? & ? & ?). unfold OtherLoop_exact; simpl.
      split; [assumption |]. split; [assumption |]. split; assumption.
    + rewrite length_app. simpl. lia.
    + intros _. rewrite length_app. simpl. lia.
Qed.

(** X21: matching a trace with at least two points against itself gives a
    value above 0 (and at most 1): every point lies on an edge of the trace,
    so all points are matched, or a degenerate edge makes the method return
    the handler's [1]. *)
Theorem matchToOtherTrace_self_positive :
  forall t : Trace,
    (2 <= List.length (points t))%nat ->
    0 < Ret_number (fst (matchToOtherTrace t t)) <= 1.
Proof.
  intros t Hlen.
  unfold matchToOtherTrace, matchToOtherTrace_private, try_except,
    matchToOtherTrace_body, bind, getPoints, gets, lift, ret.
  rewrite !Rminus_diag.
  destruct (points t) as [| p0 [| q rest]] eqn:Hps; simpl in Hlen; try lia.
  rewrite <- Hps.
  destruct (matchToOtherTrace_for 0 0 (points t) (points t) (mkOtherLoop None 0 0 0 0))
    as [s |] eqn:Hrun; simpl; [| lra].
  pose proof Hrun as Hrange.
  apply matchToOtherTrace_for_inv in Hrange.
  2:{ unfold OtherLoop_inv, MATCH_MAX_OFFSET; simpl. repeat split; try lra; lia. }
  destruct Hrange as (_ & _ & Hi2).
  rewrite Hps in Hrun at 2.
  change (matchToOtherTrace_for 0 0 (points t) (p0 :: q :: rest)
            (mkOtherLoop None 0 0 0 0))
    with (matchToOtherTrace_for 0 0 (points t) (q :: rest)
            (mkOtherLoop (Some p0) 0 0 0 0)) in Hrun.
  apply (matchToOtherTrace_for_progress (points t) (q :: rest) [] p0) in Hrun.
  - destruct Hrun as ((Ht0 & Ht1 & Ht2 & Hm) & Hn).
    assert (Hi : i2 s = List.length (points t)) by lia.
    assert (Hpos : (0 < totalmatches s)%Z) by (rewrite Hm, Hi, Hps; simpl; lia).
    rewrite (proj2 (Z.ltb_lt 0 (totalmatches s)) Hpos). simpl.
    rewrite Hm, Hi, Z_div_same by (rewrite Hps; simpl; lia).
    specialize (Ht2 Hpos). rewrite Hm, Hi in Ht2.
    assert (Hz : 0 < IZR (Z.of_nat (List.length (points t)))).
    { apply IZR_lt. rewrite Hps. simpl. lia. }
    set (n := IZR (Z.of_nat (List.length (points t)))) in *.
    unfold MATCH_MAX_OFFSET in *.
    assert (Havg : 0 <= totaloffsets s / n < 20).
    { split.
      - apply Rmult_le_pos; [lra | left; apply Rinv_0_lt_compat; exact Hz].
      - apply Rmult_lt_reg_r with (r := n); [exact Hz |].
        unfold Rdiv. rewrite Rmult_assoc, Rinv_l by lra. lra. }
    lra.
  - rewrite Hps. reflexivity.
  - reflexivity.
  - unfold OtherLoop_exact, MATCH_MAX_OFFSET; simpl.
    split; [lra |]. split; [lra |]. split; [intros H; lia | reflexivity].
  - simpl. lia.
  - intros H. discriminate H.
Qed.

Lemma matchToOtherTrace_self_positive_witness :
  0 < Ret_number (fst (matchToOtherTrace two_point_trace two_point_trace)) <= 1.
Proof.
  apply (matchToOtherTrace_self_positive two_point_trace).
  simpl. lia.
Defined.

(** ** Evaluation points *)

Lemma calcTraceLength_loop_path (ps : list TracePoint) :
  calcTraceLength_loop None 0 ps = path_length (map tp_position ps).
Proof.
  destruct ps as [| p ps]; simpl; [reflexivity |].
  rewrite calcTraceLength_loop_acc. simpl. ring.
Qed.

(** X22: [calcEvaluationTraceLength] is the length of the live trace plus
    the length of the polyline through the virtual evaluation points (the
    gap between the two lists is not counted), so it is never smaller than
    [calcTraceLength]; [calcNrOfEvaluationPoints] counts the points of both
    lists.  Neither changes the trace. *)
Theorem calcEvaluationTraceLength_spec :
  forall t : Trace,
    calcEvaluationTraceLength t
    = (Ok (path_length (map tp_position (points t))
           + path_length (map tp_position (virtualEvaluationPoints t))), t)
    /\ (exists len evalLen,
           fst (calcTraceLength t) = Ok len
           /\ fst (calcEvaluationTraceLength t) = Ok evalLen
           /\ len <= evalLen)
    /\ calcNrOfEvaluationPoints t
       = (Ok (List.length (points t)
              + List.length (virtualEvaluationPoints t))%nat, t).
Proof.
  intros t.
  assert (E : calcEvaluationTraceLength t
              = (Ok (path_length (map tp_position (points t))
                     + path_length (map tp_position (virtualEvaluationPoints t))), t)).
  { unfold calcEvaluationTraceLength, bind, gets, ret.
    rewrite calcTraceLength_eq, calcTraceLength_loop_path. reflexivity. }
  split; [exact E |]. split; [| reflexivity].
  do 2 eexists. rewrite E, calcTraceLength_eq. simpl.
  split; [reflexivity |]. split; [reflexivity |].
  pose proof (path_length_nonneg (map tp_position (virtualEvaluationPoints t))). lra.
Qed.

(** ** The admission criteria *)

Lemma admits_iff newPos t cur p0 rest :
  currentPos t = Some cur ->
  points t = p0 :: rest ->
  let dir := getDirection (tp_position p0) newPos in
  let newPosHeading := getDirection cur newPos in
  admits newPos t = true
  <-> (TRACE_MIN_DIST <= odometer t
       /\ (TRACE_MAX_DIST <= odometer t + getDistance cur newPos
           \/ TRACE_MAX_HEDINGDELTA < Rabs (dir - newPosHeading)
           \/ dir < alphamin t
           \/ alphamax t < dir)).
Proof.
  intros Hcur Hps dir newPosHeading. unfold admits. rewrite Hcur, Hps.
  fold dir newPosHeading.
  rewrite andb_true_iff, !orb_true_iff, Rleb_true, Rleb_true, !Rltb_true.
  tauto.
Qed.

(** X23: a call of [processNewPosition] with a current position admits a
    point exactly when the trace is empty, or the odometer has reached
    [TRACE_MIN_DIST] and the odometer plus the new edge reaches
    [TRACE_MAX_DIST], or the direction from the newest point differs from
    the driving direction by more than [TRACE_MAX_HEDINGDELTA], or that
    direction lies outside the tube.  The admitted point is the previous
    current position with the current speed; on admission the odometer
    restarts at the length of the new edge, otherwise it grows by it. *)
Theorem processNewPosition_admission :
  forall (newPos : Vector) (curSpeed : R) (t : Trace) (cur : Vector),
    (0 < TRACE_N_MAX t)%Z ->
    currentPos t = Some cur ->
    let t' := snd (processNewPosition newPos curSpeed t) in
    let new := mkTracePoint (mkVector (X cur) (Y cur)) NowFunction curSpeed (vehID t) in
    let admitted :=
      match points t with
      | [] => True
      | p0 :: _ =>
          let dir := getDirection (tp_position p0) newPos in
          let newPosHeading := getDirection cur newPos in
          TRACE_MIN_DIST <= odometer t
          /\ (TRACE_MAX_DIST <= odometer t + getDistance cur newPos
              \/ TRACE_MAX_HEDINGDELTA < Rabs (dir - newPosHeading)
              \/ dir < alphamin t
              \/ alphamax t < dir)
      end in
    (admitted ->
     points t' = new :: (if (TRACE_N_MAX t <=? Z.of_nat (List.length (points t)))%Z
                         then removelast (points t) else points t)
     /\ odometer t' = 0 + getDistance cur newPos)
    /\ (~ admitted ->
        points t' = points t
        /\ odometer t' = odometer t + getDistance cur newPos).
Proof.
  intros newPos curSpeed t cur Hn Hcur t' new admitted.
  assert (Ha : admits newPos t = true <-> admitted).
  { unfold admitted. destruct (points t) as [| p0 rest] eqn:Hps.
    - unfold admits. rewrite Hcur, Hps. tauto.
    - apply (admits_iff newPos t cur p0 rest Hcur Hps). }
  unfold t'. rewrite processNewPosition_ok by exact Hn. simpl snd.
  rewrite processed_state_points, Hcur.
  unfold processed_state. rewrite Hcur.
  match goal with
  | |- context [narrow_tube newPos ?s] =>
      pose proof (narrow_tube_frame newPos s) as (Ho & _)
  end.
  simpl. rewrite Ho. clear Ho. simpl.
  destruct (admits newPos t) eqn:E.
  - split; [intros _; split; reflexivity |].
    intros Hna. exfalso. apply Hna. apply Ha. reflexivity.
  - split; [| intros _; split; reflexivity].
    intros Hadm. apply Ha in Hadm. discriminate Hadm.
Qed.

Lemma processNewPosition_admission_witness :
  let newPos := mkVector 0 30 in
  let curSpeed := 10 in
  let t := fresh_trace in
  let cur := mkVector 0 0 in
  let t' := snd (processNewPosition newPos curSpeed t) in
  let new := mkTracePoint (mkVector (X cur) (Y cur)) NowFunction curSpeed (vehID t) in
  let admitted :=
    match points t with
    | [] => True
    | p0 :: _ =>
        let dir := getDirection (tp_position p0) newPos in
        let newPosHeading := getDirection cur newPos in
        TRACE_MIN_DIST <= odometer t
        /\ (TRACE_MAX_DIST <= odometer t + getDistance cur newPos
            \/ TRACE_MAX_HEDINGDELTA < Rabs (dir - newPosHeading)
            \/ dir < alphamin t
            \/ alphamax t < dir)
    end in
  (admitted ->
   points t' = new :: (if (TRACE_N_MAX t <=? Z.of_nat (List.length (points t)))%Z
                       then removelast (points t) else points t)
   /\ odometer t' = 0 + getDistance cur newPos)
  /\ (~ admitted ->
      points t' = points t
      /\ odometer t' = odometer t + getDistance cur newPos).
Proof.
  apply (processNewPosition_admission (mkVector 0 30) 10 fresh_trace (mkVector 0 0)).
  - simpl. lia.
  - reflexivity.
Defined.

Lemma calcTraceLength_chord_witness :
  exists len,
    fst (calcTraceLength two_point_trace) = Ok len
    /\ getDistance (tp_position turn_P0) (tp_position (last [turn_P1] turn_P0)) <= len.
Proof.
  apply (calcTraceLength_chord two_point_trace turn_P0 [turn_P1]).
  reflexivity.
Defined.
